(** * ethdb/badger.go: the Badger-backed key/value store of go-ethereum

    A shallow embedding of [src/ethdb/badger.go]: the CRUD surface of
    [BadgerDatabase], the write batch [badgerBatch], the cursor
    [badgerIterator], the key-prefixing [table] / [tableBatch] decorators
    and the garbage-collection loop [runGC].

    The Badger engine, the snappy codec and the Go runtime are external to
    the file.  They enter the development as parameters:
    - [Engine]: which engine calls fail, and with which error;
    - [Codec]: snappy's [Encode] and [Decode];
    - [MapRange]: the order in which a Go [range] visits a map.
    Timers and meters only feed the metrics sink: the methods are given
    without them first, and with them in [Metered]. *)

From Stdlib Require Import ZArith QArith.
From stdpp Require Import gmap list sorting strings.

Set Default Proof Using "Type".
Open Scope Z_scope.

(** ** Bytes, keys and errors *)

(** Go's [[]byte]. *)
Abbreviation bytes := (list Byte.byte).

#[export] Instance byte_eq_dec : EqDecision Byte.byte.
Proof. intros x y. destruct (Byte.byte_eq_dec x y); [left|right]; done. Defined.

#[export] Instance byte_countable : Countable Byte.byte :=
  inj_countable Byte.to_N Byte.of_N Byte.of_to_N.

(** Go's [error] values that occur in the file.  [None : option error] is
    Go's [nil] error.  [ErrKeyNotFound] is [badger.ErrKeyNotFound], the only
    error the file compares against; [ErrEmptyKey] is the engine's refusal of
    a zero-length key, [ErrCorrupt] the codec's refusal of a payload and
    [ErrEngine] any other engine failure. *)
Inductive error : Type :=
  | ErrKeyNotFound
  | ErrEmptyKey
  | ErrCorrupt
  | ErrEngine (code : nat).

#[export] Instance error_eq_dec : EqDecision error.
Proof. solve_decision. Defined.

(** ** The external collaborators *)

(** The discard ratio handed to the value-log collector: a rational, so that
    the constant [0.5] is kept exactly. *)
Definition ratio := Q.

(** What the engine may refuse.  Each field is asked at the call it is named
    after; [None] lets the call go through. *)
Record Engine : Type := {
  Set_err : bytes → bytes → option error;      (* txn.Set(key, value) *)
  Get_err : bytes → option error;              (* txn.Get(key) *)
  Value_err : bytes → option error;            (* item.Value() *)
  Delete_err : bytes → option error;           (* txn.Delete(key) *)
  Commit_err : gmap bytes bytes → gmap bytes bytes → option error;
                                               (* txn.Commit, old and new state *)
  Purge_err : nat → option error;              (* PurgeOlderVersions, per cycle *)
  GC_err : nat → ratio → option error          (* RunValueLogGC, per cycle *)
}.

(** snappy: [Encode(nil, v)] cannot fail; [Decode(nil, b)] returns a slice
    and an error side by side, as the Go function does. *)
Record Codec : Type := {
  snappy_Encode : bytes → bytes;
  snappy_Decode : bytes → bytes * option error
}.

(** The order in which [for key, value := range m] visits [m]. *)
Abbreviation MapRange := (gmap bytes bytes → list (bytes * bytes)).

Definition range_ok (range : MapRange) : Prop :=
  ∀ m, range m ≡ₚ map_to_list m.

(** ** The engine's transactions *)

Module Txn.

(** A transaction sees the state it was opened on plus its own writes. *)
Record t : Type := mk { view : gmap bytes bytes }.

(** What [txn.Get] hands out: the key and the raw stored bytes. *)
Record Item : Type := mkItem { item_key : bytes; item_raw : bytes }.

Section Calls.
Context (E : Engine).

Definition Set_ (txn : t) (key value : bytes) : option error * t :=
  match Set_err E key value with
  | Some e => (Some e, txn)
  | None => (None, mk (<[key := value]> (view txn)))
  end.

Definition Get (txn : t) (key : bytes) : option Item * option error :=
  match Get_err E key with
  | Some e => (None, Some e)
  | None =>
      match view txn !! key with
      | Some raw => (Some (mkItem key raw), None)
      | None => (None, Some ErrKeyNotFound)
      end
  end.

Definition Delete (txn : t) (key : bytes) : option error * t :=
  match Delete_err E key with
  | Some e => (Some e, txn)
  | None => (None, mk (delete key (view txn)))
  end.

Definition Value (item : Item) : bytes * option error :=
  match Value_err E (item_key item) with
  | Some e => ([], Some e)
  | None => (item_raw item, None)
  end.

(** [db.View(fn)]: [fn] runs on a read-only transaction; whatever it
    computes besides its error is carried in [A]. *)
Definition View {A} (fn : t → A * option error)
    (s : gmap bytes bytes) : A * option error :=
  fn (mk s).

(** [db.Update(fn)]: [fn] runs on a fresh transaction; an error from [fn]
    discards it, otherwise the transaction is committed. *)
Definition Update (fn : t → option error * t)
    (s : gmap bytes bytes) : option error * gmap bytes bytes :=
  let '(err, txn) := fn (mk s) in
  match err with
  | Some e => (Some e, s)
  | None =>
      match Commit_err E s (view txn) with
      | Some e => (Some e, s)
      | None => (None, view txn)
      end
  end.
End Calls.

End Txn.

(** ** BadgerDatabase *)

(** The store object: its path and the engine's committed state. *)
Record BadgerDatabase : Type := mkDB {
  fn : string;
  db : gmap bytes bytes
}.

Module DB.
Section Methods.
Context (E : Engine) (C : Codec).

Definition Path (d : BadgerDatabase) : string := fn d.

Definition Put (key value : bytes) (d : BadgerDatabase)
    : option error * BadgerDatabase :=
  let '(err, s) :=
    Txn.Update E (λ txn,
      let value := snappy_Encode C value in
      let '(err, txn) := Txn.Set_ E txn key value in
      (err, txn)) (db d) in
  (err, mkDB (fn d) s).

Definition Has (key : bytes) (d : BadgerDatabase) : bool * option error :=
  Txn.View (λ txn,
    let ret := false in
    let '(item, err) := Txn.Get E txn key in
    let ret := if item is Some _ then true else ret in
    if decide (err = Some ErrKeyNotFound) then (false, None)
    else (ret, err)) (db d).

(** The value half of the result is [None] for Go's [nil] slice. *)
Definition Get (key : bytes) (d : BadgerDatabase)
    : option bytes * option error :=
  let '(dat, err) :=
    Txn.View (λ txn,
      let dat : bytes := [] in
      let '(item, err) := Txn.Get E txn key in
      match item, err with
      | _, Some e => (dat, Some e)
      | None, None =>
          (* item.Value() on a nil item; [Txn.Get] never returns a nil
             item together with a nil error ([Txn.Get_item_or_err]) *)
          (dat, Some (ErrEngine 0))
      | Some item, None =>
          let '(val, err) := Txn.Value E item in
          match err with
          | Some e => (dat, Some e)
          | None =>
              let dat := val in
              let '(dat, err) := snappy_Decode C dat in
              match err with
              | Some e => (dat, Some e)
              | None => (dat, None)
              end
          end
      end) (db d) in
  match err with
  | Some e => (None, Some e)
  | None => (Some dat, None)
  end.

Definition Delete (key : bytes) (d : BadgerDatabase)
    : option error * BadgerDatabase :=
  let '(err, s) :=
    Txn.Update E (λ txn,
      let '(err, txn) := Txn.Delete E txn key in
      if decide (err = Some ErrKeyNotFound) then (None, txn)
      else (err, txn)) (db d) in
  (err, mkDB (fn d) s).
End Methods.
End DB.

(** ** badgerBatch *)

(** Go's [int] on a 64-bit platform. *)
Definition int_wrap (z : Z) : Z := (z + 2 ^ 63) `mod` 2 ^ 64 - 2 ^ 63.

(** The batch object.  Its [db] pointer is the store the batch was made from;
    [Write] takes that store as an argument. *)
Record badgerBatch : Type := mkBatch {
  b : gmap bytes bytes;
  size : Z
}.

Module Batch.
Section Methods.
Context (E : Engine) (C : Codec) (range : MapRange).

Definition NewBatch : badgerBatch := mkBatch ∅ 0.

Definition Put (key value : bytes) (bt : badgerBatch)
    : option error * badgerBatch :=
  (None, mkBatch (<[key := value]> (b bt))
                 (int_wrap (size bt + Z.of_nat (length value)))).

(** The body of the closure handed to [Update]: every entry is encoded
    and set, and [err] keeps the outcome of the entry visited last. *)
Definition Write_loop (entries : list (bytes * bytes)) (txn : Txn.t)
    : option error * Txn.t :=
  foldl (λ '(err, txn) '(key, value),
           let value := snappy_Encode C value in
           Txn.Set_ E txn key value)
        (None, txn) entries.

Definition Write (bt : badgerBatch) (d : BadgerDatabase)
    : option error * badgerBatch * BadgerDatabase :=
  let '(err, s) := Txn.Update E (Write_loop (range (b bt))) (db d) in
  (err, mkBatch ∅ 0, mkDB (fn d) s).

Definition Discard (bt : badgerBatch) : badgerBatch := mkBatch ∅ 0.

Definition ValueSize (bt : badgerBatch) : Z := size bt.

Definition Reset (bt : badgerBatch) : badgerBatch := mkBatch ∅ 0.
End Methods.
End Batch.

(** ** The engine's iterator *)

(** Keys are ordered as [bytes.Compare] orders them. *)
Fixpoint bytes_leb (x y : bytes) : bool :=
  match x, y with
  | [], _ => true
  | _ :: _, [] => false
  | a :: x, c :: y =>
      if (Byte.to_N a <? Byte.to_N c)%N then true
      else if (Byte.to_N a =? Byte.to_N c)%N then bytes_leb x y
      else false
  end.

Definition entry_le (x y : bytes * bytes) : Prop := bytes_leb x.1 y.1.

#[export] Instance entry_le_dec x y : Decision (entry_le x y).
Proof. unfold entry_le. apply _. Defined.

(** The engine keeps keys of its own under the prefix ["!badger!"].  Its
    transactions read and write such a key like any other; its iterators
    pass over them. *)
Definition badgerPrefix : bytes :=
  [Byte.x21; Byte.x62; Byte.x61; Byte.x64; Byte.x67; Byte.x65; Byte.x72;
   Byte.x21].

(** The entries an iterator shows. *)
Definition shown (x : bytes * bytes) : Prop := ¬ badgerPrefix `prefix_of` x.1.

#[export] Instance shown_dec x : Decision (shown x).
Proof. unfold shown. apply _. Defined.

Module EngineIter.

(** An iterator made with the default options: the entries of the
    transaction that it shows, in ascending key order ([entries]), and what
    is left from the current position on ([cur]; the head is the current
    item, and an empty [cur] is the nil item of an iterator that is not
    valid). *)
Record t : Type := mk {
  entries : list (bytes * bytes);
  cur : list (bytes * bytes)
}.

Definition NewIterator (txn : Txn.t) : t :=
  mk (merge_sort entry_le (filter shown (map_to_list (Txn.view txn)))) [].

Definition Rewind (it : t) : t := mk (entries it) (entries it).

(** [Next] starts by dereferencing the current item: without one the call
    panics, which is the [None]. *)
Definition Next (it : t) : option t :=
  match cur it with
  | [] => None
  | _ :: rest => Some (mk (entries it) rest)
  end.

Definition Valid (it : t) : bool :=
  match cur it with [] => false | _ :: _ => true end.

Fixpoint seek_from (key : bytes) (l : list (bytes * bytes))
    : list (bytes * bytes) :=
  match l with
  | [] => []
  | x :: l' => if bytes_leb key x.1 then l else seek_from key l'
  end.

Definition Seek (key : bytes) (it : t) : t :=
  mk (entries it) (seek_from key (entries it)).

(** [None] is the nil item of an iterator that is not valid. *)
Definition Item (it : t) : option Txn.Item :=
  match cur it with
  | [] => None
  | (k, raw) :: _ => Some (Txn.mkItem k raw)
  end.

End EngineIter.

(** ** badgerIterator *)

Record badgerIterator : Type := mkIter {
  txn : Txn.t;
  internIterator : EngineIter.t;
  released : bool;
  initialised : bool
}.

Module Iter.
Section Methods.
Context (E : Engine).

Definition NewIterator (d : BadgerDatabase) : badgerIterator :=
  let txn := Txn.mk (db d) in
  let internIterator := EngineIter.NewIterator txn in
  mkIter txn internIterator false false.

(** Closing the engine iterator and discarding the transaction leave
    nothing to observe but the flag. *)
Definition Release (it : badgerIterator) : badgerIterator :=
  mkIter (txn it) (internIterator it) true (initialised it).

Definition Released (it : badgerIterator) : bool := released it.

(** [None] is the panic of the engine's [Next] on a cursor without a current
    item. *)
Definition Next (it : badgerIterator) : option (bool * badgerIterator) :=
  if negb (initialised it) then
    let inner := EngineIter.Rewind (internIterator it) in
    Some (EngineIter.Valid inner, mkIter (txn it) inner (released it) true)
  else
    inner ← EngineIter.Next (internIterator it);
    Some (EngineIter.Valid inner,
          mkIter (txn it) inner (released it) (initialised it)).

Definition Seek (key : bytes) (it : badgerIterator) : badgerIterator :=
  mkIter (txn it) (EngineIter.Seek key (internIterator it))
         (released it) (initialised it).

(** [Key] and [Value] dereference the current item; the outer [None] is
    the nil dereference at a position that is not valid. *)
Definition Key (it : badgerIterator) : option bytes :=
  item ← EngineIter.Item (internIterator it);
  Some (Txn.item_key item).

(** The inner [None] is the [nil] returned on a read fault. *)
Definition Value (it : badgerIterator) : option (option bytes) :=
  item ← EngineIter.Item (internIterator it);
  let '(value, err) := Txn.Value E item in
  match err with
  | Some _ => Some None
  | None => Some (Some value)
  end.

(** [n] calls of [Next] in a row: their answers and the cursor after them,
    or [None] when one of them panics. *)
Fixpoint Nexts (n : nat) (it : badgerIterator)
    : option (list bool * badgerIterator) :=
  match n with
  | O => Some ([], it)
  | S n =>
      '(answer, it) ← Next it;
      '(answers, it) ← Nexts n it;
      Some (answer :: answers, it)
  end.

(** A started cursor of the same snapshot standing at [rest]. *)
Definition moved_to (it : badgerIterator) (rest : list (bytes * bytes))
    : badgerIterator :=
  mkIter (txn it)
         (EngineIter.mk (EngineIter.entries (internIterator it)) rest)
         (released it) true.

(** The cursors a caller can get from [it0] by calls of [Next] that return
    and calls of [Seek]. *)
Inductive reaches (it0 : badgerIterator) : badgerIterator → Prop :=
  | reaches_start : reaches it0 it0
  | reaches_Next it answer it' :
      reaches it0 it → Next it = Some (answer, it') → reaches it0 it'
  | reaches_Seek key it :
      reaches it0 it → reaches it0 (Seek key it).
End Methods.
End Iter.

(** ** The Database and Batch interfaces *)

(** Go's [Batch] and [Database] interfaces, over a heap [W] that holds the
    physical store: [B] and [D] are what the interface values point to. *)
Class BatchI (W B : Type) : Type := {
  i_BatchPut : bytes → bytes → B → option error * B;
  i_Write : B → W → option error * B * W;
  i_ValueSize : B → Z;
  i_Reset : B → B
}.

Class DatabaseI (W D B : Type) : Type := {
  i_Put : D → bytes → bytes → W → option error * W;
  i_Has : D → bytes → W → bool * option error;
  i_Get : D → bytes → W → option bytes * option error;
  i_Delete : D → bytes → W → option error * W;
  i_NewBatch : D → B
}.

(** A [*BadgerDatabase]: the heap holds the one store it points to. *)
Inductive BadgerRef : Type := badgerRef.

Section BadgerInstances.
Context (E : Engine) (C : Codec) (range : MapRange).

#[export] Instance badgerBatch_BatchI : BatchI BadgerDatabase badgerBatch := {
  i_BatchPut := Batch.Put;
  i_Write := Batch.Write E C range;
  i_ValueSize := Batch.ValueSize;
  i_Reset := Batch.Reset
}.

#[export] Instance BadgerDatabase_DatabaseI
    : DatabaseI BadgerDatabase BadgerRef badgerBatch := {
  i_Put _ := DB.Put E C;
  i_Has _ := DB.Has E;
  i_Get _ := DB.Get E C;
  i_Delete _ := DB.Delete E;
  i_NewBatch _ := Batch.NewBatch
}.
End BadgerInstances.

(** ** table and tableBatch *)

Record table (D : Type) : Type := mkTable {
  table_db : D;
  prefix : string
}.
Arguments mkTable {D} _ _.
Arguments table_db {D} _.
Arguments prefix {D} _.

Record tableBatch (B : Type) : Type := mkTableBatch {
  batch : B;
  batch_prefix : string
}.
Arguments mkTableBatch {B} _ _.
Arguments batch {B} _.
Arguments batch_prefix {B} _.

(** [append([]byte(prefix), key...)] *)
Definition prefixed (prefix : string) (key : bytes) : bytes :=
  String.list_byte_of_string prefix ++ key.

Module Table.
Section Methods.
Context {W D B : Type} `{!DatabaseI W D B}.

Definition NewTable (d : D) (prefix : string) : table D :=
  mkTable d prefix.

Definition Put (dt : table D) (key value : bytes) (w : W)
    : option error * W :=
  i_Put (table_db dt) (prefixed (prefix dt) key) value w.

Definition Has (dt : table D) (key : bytes) (w : W)
    : bool * option error :=
  i_Has (table_db dt) (prefixed (prefix dt) key) w.

Definition Get (dt : table D) (key : bytes) (w : W)
    : option bytes * option error :=
  i_Get (table_db dt) (prefixed (prefix dt) key) w.

Definition Delete (dt : table D) (key : bytes) (w : W)
    : option error * W :=
  i_Delete (table_db dt) (prefixed (prefix dt) key) w.

Definition Close (dt : table D) (w : W) : W := w.

Definition NewTableBatch (d : D) (prefix : string) : tableBatch B :=
  mkTableBatch (i_NewBatch d) prefix.

Definition NewBatch (dt : table D) : tableBatch B :=
  mkTableBatch (i_NewBatch (table_db dt)) (prefix dt).
End Methods.
End Table.

Module TableBatch.
Section Methods.
Context {W B : Type} `{!BatchI W B}.

Definition Put (key value : bytes) (tb : tableBatch B)
    : option error * tableBatch B :=
  let '(err, bt) :=
    i_BatchPut (prefixed (batch_prefix tb) key) value (batch tb) in
  (err, mkTableBatch bt (batch_prefix tb)).

Definition Write (tb : tableBatch B) (w : W)
    : option error * tableBatch B * W :=
  let '(err, bt, w) := i_Write (batch tb) w in
  (err, mkTableBatch bt (batch_prefix tb), w).

Definition ValueSize (tb : tableBatch B) : Z :=
  i_ValueSize (batch tb).

Definition Reset (tb : tableBatch B) : tableBatch B :=
  mkTableBatch (i_Reset (batch tb)) (batch_prefix tb).
End Methods.
End TableBatch.

#[export] Instance tableBatch_BatchI {W B} `{!BatchI W B}
    : BatchI W (tableBatch B) := {
  i_BatchPut := TableBatch.Put;
  i_Write := TableBatch.Write;
  i_ValueSize := TableBatch.ValueSize;
  i_Reset := TableBatch.Reset
}.

#[export] Instance table_DatabaseI {W D B} `{!DatabaseI W D B}
    : DatabaseI W (table D) (tableBatch B) := {
  i_Put := Table.Put;
  i_Has := Table.Has;
  i_Get := Table.Get;
  i_Delete := Table.Delete;
  i_NewBatch := Table.NewBatch
}.

(** ** The garbage-collection loop *)

(** [time.Duration] counts nanoseconds. *)
Definition Second : Z := 1000000000.
Definition Minute : Z := 60 * Second.

Definition discardRatio : ratio := 1 # 2.
Definition cgInterval : Z := 10 * Minute.

(** What a cycle does to its surroundings. *)
Inductive EngineCall : Type :=
  | PurgeOlderVersions
  | RunValueLogGC (r : ratio).

Inductive LogLine : Type :=
  | LogInfo (msg : string)
  | LogError (msg : string) (err : error).

(** The goroutine's surroundings: the ticks received so far, the time of the
    last one on the ticker's clock, and the calls and log lines issued. *)
Record GCState : Type := mkGC {
  ticks : nat;
  clock : Z;
  calls : list EngineCall;
  logged : list LogLine
}.

Module GC.
Section Methods.
Context (E : Engine).

(** [collectGarbage] in cycle number [cycle]: its error and the engine
    calls it made. *)
Definition collectGarbage (cycle : nat) : option error * list EngineCall :=
  match Purge_err E cycle with
  | Some err => (Some err, [PurgeOlderVersions])
  | None =>
      (GC_err E cycle discardRatio,
       [PurgeOlderVersions; RunValueLogGC discardRatio])
  end.

(** One turn of the [for] loop: the [select] waits for the next tick,
    then the [case] body runs. *)
Definition cycle (st : GCState) : GCState :=
  let clock := clock st + cgInterval in
  let logged := logged st ++ [LogInfo "Start garbage collecting..."] in
  let '(err, made) := collectGarbage (ticks st) in
  let logged :=
    match err with
    | None => logged ++ [LogInfo "Garbage collected"]
    | Some err => logged ++ [LogError "Failed to collect garbage" err]
    end in
  mkGC (S (ticks st)) clock (calls st ++ made) logged.

Definition started : GCState := mkGC 0 0 [] [].

(** [runGC] has no exit: what can be observed of it is its state after
    any number of turns. *)
Fixpoint runGC (turns : nat) : GCState :=
  match turns with
  | O => started
  | S n => cycle (runGC n)
  end.
End Methods.
End GC.

(** ** Metrics *)

(** The handles of the metrics package.  A timer keeps how many samples it
    was given (the durations themselves are wall-clock time), a meter the
    sum of what was marked, an [int64].

    The package has one registry of names.  Registering a handle under a
    name that is taken is refused, and the caller is still handed the new
    handle: [registered] tells whether the handle is the one the registry
    reports under its name. *)
Module Metrics.

Record Timer : Type := mkTimer {
  timer_name : string;
  samples : nat;
  timer_registered : bool
}.

Record Meter : Type := mkMeter {
  meter_name : string;
  count : Z;
  meter_registered : bool
}.

(** The names taken in the registry. *)
Abbreviation Registry := (gset string).

Definition NewRegisteredTimer (name : string) (r : Registry)
    : Timer * Registry :=
  (mkTimer name 0 (bool_decide (name ∉ r)), {[name]} ∪ r).

Definition NewRegisteredMeter (name : string) (r : Registry)
    : Meter * Registry :=
  (mkMeter name 0 (bool_decide (name ∉ r)), {[name]} ∪ r).

Definition UpdateSince (t : Timer) : Timer :=
  mkTimer (timer_name t) (S (samples t)) (timer_registered t).

Definition Mark (n : Z) (m : Meter) : Meter :=
  mkMeter (meter_name m) (int_wrap (count m + n)) (meter_registered m).

End Metrics.

(** The nine handles of a [BadgerDatabase]; [None] is a nil handle. *)
Record Meters : Type := mkMeters {
  getTimer : option Metrics.Timer;
  putTimer : option Metrics.Timer;
  delTimer : option Metrics.Timer;
  missMeter : option Metrics.Meter;
  readMeter : option Metrics.Meter;
  writeMeter : option Metrics.Meter;
  batchPutTimer : option Metrics.Timer;
  batchWriteTimer : option Metrics.Timer;
  batchWriteMeter : option Metrics.Meter
}.

(** The handles of a store that [Meter] was never called on. *)
Definition no_meters : Meters :=
  mkMeters None None None None None None None None None.

(** The closure of [Get] with what it leaves in [dat], before [Get] looks at
    the error. *)
Definition Get_view (E : Engine) (C : Codec) (key : bytes)
    (d : BadgerDatabase) : bytes * option error :=
  Txn.View (λ txn,
    let dat : bytes := [] in
    let '(item, err) := Txn.Get E txn key in
    match item, err with
    | _, Some e => (dat, Some e)
    | None, None => (dat, Some (ErrEngine 0))
    | Some item, None =>
        let '(val, err) := Txn.Value E item in
        match err with
        | Some e => (dat, Some e)
        | None =>
            let dat := val in
            let '(dat, err) := snappy_Decode C dat in
            match err with
            | Some e => (dat, Some e)
            | None => (dat, None)
            end
        end
    end) (db d).

(** The methods with their metering: each takes and returns the handles next
    to what the unmetered method takes and returns. *)
Module Metered.
Section Methods.
Context (E : Engine) (C : Codec) (range : MapRange).

(** [if h != nil { defer h.UpdateSince(time.Now()) }] and
    [if h != nil { h.Mark(n) }] *)
Definition sample (h : option Metrics.Timer) : option Metrics.Timer :=
  Metrics.UpdateSince <$> h.

Definition mark (n : Z) (h : option Metrics.Meter) : option Metrics.Meter :=
  Metrics.Mark n <$> h.

(** [enabled] is [metrics.Enabled]; the registry is taken and returned next
    to the handles. *)
Definition Meter (enabled : bool) (prefix : string) (m : Meters)
    (r : Metrics.Registry) : Meters * Metrics.Registry :=
  if negb enabled then (m, r)
  else
    let '(getTimer, r) :=
      Metrics.NewRegisteredTimer (prefix +:+ "user/gets") r in
    let '(putTimer, r) :=
      Metrics.NewRegisteredTimer (prefix +:+ "user/puts") r in
    let '(delTimer, r) :=
      Metrics.NewRegisteredTimer (prefix +:+ "user/dels") r in
    let '(missMeter, r) :=
      Metrics.NewRegisteredMeter (prefix +:+ "user/misses") r in
    let '(readMeter, r) :=
      Metrics.NewRegisteredMeter (prefix +:+ "user/reads") r in
    let '(writeMeter, r) :=
      Metrics.NewRegisteredMeter (prefix +:+ "user/writes") r in
    let '(batchPutTimer, r) :=
      Metrics.NewRegisteredTimer (prefix +:+ "user/batchPuts") r in
    let '(batchWriteTimer, r) :=
      Metrics.NewRegisteredTimer (prefix +:+ "user/batchWriteTimes") r in
    let '(batchWriteMeter, r) :=
      Metrics.NewRegisteredMeter (prefix +:+ "user/batchWrites") r in
    (mkMeters (Some getTimer) (Some putTimer) (Some delTimer)
              (Some missMeter) (Some readMeter) (Some writeMeter)
              (Some batchPutTimer) (Some batchWriteTimer)
              (Some batchWriteMeter),
     r).

Definition Put (key value : bytes) (m : Meters) (d : BadgerDatabase)
    : option error * Meters * BadgerDatabase :=
  let wm := mark (Z.of_nat (length value)) (writeMeter m) in
  let '(err, d) := DB.Put E C key value d in
  (err,
   mkMeters (getTimer m) (sample (putTimer m)) (delTimer m) (missMeter m)
            (readMeter m) wm (batchPutTimer m) (batchWriteTimer m)
            (batchWriteMeter m),
   d).

Definition Get (key : bytes) (m : Meters) (d : BadgerDatabase)
    : option bytes * option error * Meters :=
  let '(dat, err) := Get_view E C key d in
  let rm := mark (Z.of_nat (length dat)) (readMeter m) in
  match err with
  | Some e =>
      (None, Some e,
       mkMeters (sample (getTimer m)) (putTimer m) (delTimer m)
                (mark 1 (missMeter m)) rm (writeMeter m) (batchPutTimer m)
                (batchWriteTimer m) (batchWriteMeter m))
  | None =>
      (Some dat, None,
       mkMeters (sample (getTimer m)) (putTimer m) (delTimer m)
                (missMeter m) rm (writeMeter m) (batchPutTimer m)
                (batchWriteTimer m) (batchWriteMeter m))
  end.

Definition Delete (key : bytes) (m : Meters) (d : BadgerDatabase)
    : option error * Meters * BadgerDatabase :=
  let '(err, d) := DB.Delete E key d in
  (err,
   mkMeters (getTimer m) (putTimer m) (sample (delTimer m)) (missMeter m)
            (readMeter m) (writeMeter m) (batchPutTimer m)
            (batchWriteTimer m) (batchWriteMeter m),
   d).

Definition BatchPut (key value : bytes) (bt : badgerBatch) (m : Meters)
    : option error * badgerBatch * Meters :=
  let '(err, bt) := Batch.Put key value bt in
  (err, bt,
   mkMeters (getTimer m) (putTimer m) (delTimer m) (missMeter m)
            (readMeter m) (writeMeter m) (sample (batchPutTimer m))
            (batchWriteTimer m) (batchWriteMeter m)).

Definition BatchWrite (bt : badgerBatch) (m : Meters) (d : BadgerDatabase)
    : option error * badgerBatch * Meters * BadgerDatabase :=
  let bm := mark (size bt) (batchWriteMeter m) in
  let '(err, bt, d) := Batch.Write E C range bt d in
  (err, bt,
   mkMeters (getTimer m) (putTimer m) (delTimer m) (missMeter m)
            (readMeter m) (writeMeter m) (batchPutTimer m)
            (sample (batchWriteTimer m)) bm,
   d).
End Methods.
End Metered.

(** ** Runs of store calls *)

(** A run of [Put] calls on the store, one after the other; the errors are
    dropped. *)
Definition Put_each (E : Engine) (C : Codec) (entries : list (bytes * bytes))
    (d : BadgerDatabase) : BadgerDatabase :=
  foldl (λ d '(key, value), (DB.Put E C key value d).2) d entries.

(** An engine that never refuses anything. *)
Definition quiet_engine : Engine := {|
  Set_err _ _ := None;
  Get_err _ := None;
  Value_err _ := None;
  Delete_err _ := None;
  Commit_err _ _ := None;
  Purge_err _ := None;
  GC_err _ _ := None
|}.

(** ** Concrete collaborators for the examples *)

(** An engine that refuses the zero-length key and nothing else. *)
Definition no_empty_key (key : bytes) : option error :=
  if decide (key = []) then Some ErrEmptyKey else None.

Definition empty_key_engine : Engine := {|
  Set_err key _ := no_empty_key key;
  Get_err := no_empty_key;
  Value_err _ := None;
  Delete_err := no_empty_key;
  Commit_err _ _ := None;
  Purge_err _ := None;
  GC_err _ _ := None
|}.

(** An engine whose purge fails in every odd cycle. *)
Definition odd_purge_engine : Engine := {|
  Set_err _ _ := None;
  Get_err _ := None;
  Value_err _ := None;
  Delete_err _ := None;
  Commit_err _ _ := None;
  Purge_err n := if Nat.odd n then Some (ErrEngine 7) else None;
  GC_err _ _ := None
|}.

(** A codec that frames the payload with one byte, its length modulo 256,
    and rejects a frame whose header does not fit. *)
Definition frame_header (v : bytes) : Byte.byte :=
  default Byte.x00 (Byte.of_N (N.of_nat (length v) mod 256)).

Definition framed : Codec := {|
  snappy_Encode v := frame_header v :: v;
  snappy_Decode raw :=
    match raw with
    | [] => ([], Some ErrCorrupt)
    | h :: v => if decide (h = frame_header v) then (v, None)
                else ([], Some ErrCorrupt)
    end
|}.

(** A [range] that happens to visit the keys in ascending order. *)
Definition sorted_range : MapRange :=
  λ m, merge_sort entry_le (map_to_list m).

Definition k1 : bytes := [Byte.x6b; Byte.x31].
Definition v1 : bytes := [Byte.x76; Byte.x31].
Definition key_a : bytes := [Byte.x61].
Definition empty_db : BadgerDatabase := mkDB "chaindata" ∅.

(** A stored payload that [framed] rejects, and a decoder that still hands
    out bytes next to its error: [Get] passes the error on and no bytes. *)
Definition leaky : Codec := {|
  snappy_Encode := snappy_Encode framed;
  snappy_Decode raw :=
    let '(v, err) := snappy_Decode framed raw in
    match err with Some e => (raw, Some e) | None => (v, None) end
|}.

Definition damaged_db : BadgerDatabase := mkDB "chaindata" {[ k1 := v1 ]}.

(** A batch holding the zero-length key and the key ["a"]. *)
Definition two_entries : badgerBatch :=
  (Batch.Put key_a v1 (Batch.Put [] v1 Batch.NewBatch).2).2.

(** ** Runs of batch calls *)

(** A run of [Put] calls on a batch, errors aside (no [Put] here has one). *)
Definition put_all {W B} `{!BatchI W B} (entries : list (bytes * bytes))
    (bt : B) : B :=
  foldl (λ bt '(key, value), (i_BatchPut key value bt).2) bt entries.

Definition prefix_all (p : string) (entries : list (bytes * bytes))
    : list (bytes * bytes) :=
  (λ '(key, value), (prefixed p key, value)) <$> entries.

(** The value bytes of a run of entries. *)
Definition value_bytes (entries : list (bytes * bytes)) : Z :=
  foldr (λ '(_, value) n, Z.of_nat (length value) + n) 0 entries.

(** A batch holding nothing but the zero-length key. *)
Definition empty_key_only : badgerBatch :=
  (Batch.Put [] v1 Batch.NewBatch).2.

(** A store with the keys ["a"] and ["k1"]. *)
Definition two_key_db : BadgerDatabase :=
  mkDB "chaindata" {[ key_a := v1; k1 := v1 ]}.

(** Telling the two engine calls of a cycle apart. *)
Definition is_purge (c : EngineCall) : bool :=
  match c with PurgeOlderVersions => true | RunValueLogGC _ => false end.

(** Handles as [Meter] leaves them, with something counted on each. *)
Definition used_meters : Meters :=
  mkMeters
    (Some (Metrics.mkTimer "eth/db/user/gets" 5 true))
    (Some (Metrics.mkTimer "eth/db/user/puts" 3 true))
    (Some (Metrics.mkTimer "eth/db/user/dels" 1 true))
    (Some (Metrics.mkMeter "eth/db/user/misses" 2 true))
    (Some (Metrics.mkMeter "eth/db/user/reads" 40 true))
    (Some (Metrics.mkMeter "eth/db/user/writes" 30 true))
    (Some (Metrics.mkTimer "eth/db/user/batchPuts" 0 true))
    (Some (Metrics.mkTimer "eth/db/user/batchWriteTimes" 0 true))
    (Some (Metrics.mkMeter "eth/db/user/batchWrites" 0 true)).

(** A store whose only entry is under a key of the engine's own prefix, and
    one that holds the key ["a"] besides. *)
Definition badger_key : bytes := badgerPrefix ++ [Byte.x78].
Definition hidden_db : BadgerDatabase := mkDB "chaindata" {[ badger_key := v1 ]}.
Definition half_hidden_db : BadgerDatabase :=
  mkDB "chaindata" {[ badger_key := v1; key_a := v1 ]}.

(** * Properties *)

(** ** The key order *)

Lemma bytes_leb_total (x y : bytes) : bytes_leb x y ∨ bytes_leb y x.
Proof.
  revert y. induction x as [|a x IH]; intros [|c y]; simpl;
    [by left | by left | by right |].
  destruct (N.ltb_spec (Byte.to_N a) (Byte.to_N c)),
           (N.ltb_spec (Byte.to_N c) (Byte.to_N a));
    simpl; [lia | by left | by right |].
  destruct (N.eqb_spec (Byte.to_N a) (Byte.to_N c)),
           (N.eqb_spec (Byte.to_N c) (Byte.to_N a)); try lia.
  apply IH.
Qed.

Lemma bytes_leb_trans (x y z : bytes) :
  bytes_leb x y → bytes_leb y z → bytes_leb x z.
Proof.
  revert y z.
  induction x as [|a x IH]; intros [|c y] [|e z]; simpl; try done.
  destruct (N.ltb_spec (Byte.to_N a) (Byte.to_N c)),
           (N.ltb_spec (Byte.to_N c) (Byte.to_N e)),
           (N.ltb_spec (Byte.to_N a) (Byte.to_N e)); simpl; try done; try lia.
  - destruct (N.eqb_spec (Byte.to_N c) (Byte.to_N e)); [lia | done].
  - destruct (N.eqb_spec (Byte.to_N a) (Byte.to_N c)); [lia | done].
  - destruct (N.eqb_spec (Byte.to_N a) (Byte.to_N c)),
             (N.eqb_spec (Byte.to_N c) (Byte.to_N e)),
             (N.eqb_spec (Byte.to_N a) (Byte.to_N e)); try done; try lia.
    apply IH.
Qed.

#[export] Instance entry_le_total : Total entry_le.
Proof. intros x y. apply bytes_leb_total. Qed.

#[export] Instance entry_le_trans : Transitive entry_le.
Proof. intros x y z. apply bytes_leb_trans. Qed.

Lemma sorted_range_ok : range_ok sorted_range.
Proof. intros m. apply merge_sort_Permutation. Qed.

(** ** The engine's calls *)

Lemma Txn_Get_item_or_err E txn key :
  (Txn.Get E txn key).1 = None ↔ (Txn.Get E txn key).2 ≠ None.
Proof.
  unfold Txn.Get. destruct (Get_err E key); simpl; [done|].
  destruct (Txn.view txn !! key); simpl; split; done.
Qed.

Lemma framed_roundtrip v :
  snappy_Decode framed (snappy_Encode framed v) = (v, None).
Proof. simpl. by rewrite decide_True. Qed.

(** ** Get *)

Section GetFacts.
Context (E : Engine) (C : Codec).
Implicit Types (key : bytes) (d : BadgerDatabase).

(** What [Get] returns, cause by cause. *)
Lemma Get_engine_fault key d e :
  Get_err E key = Some e → DB.Get E C key d = (None, Some e).
Proof. intros H. unfold DB.Get, Txn.View, Txn.Get. by rewrite H. Qed.

Lemma Get_absent key d :
  Get_err E key = None → db d !! key = None →
  DB.Get E C key d = (None, Some ErrKeyNotFound).
Proof.
  intros H1 H2. unfold DB.Get, Txn.View, Txn.Get. simpl. by rewrite H1, H2.
Qed.

Lemma Get_read_fault key d raw e :
  Get_err E key = None → db d !! key = Some raw →
  Value_err E key = Some e →
  DB.Get E C key d = (None, Some e).
Proof.
  intros H1 H2 H3. unfold DB.Get, Txn.View, Txn.Get, Txn.Value. simpl.
  rewrite H1, H2. simpl. by rewrite H3.
Qed.

Lemma Get_decode_failure key d raw e :
  Get_err E key = None → db d !! key = Some raw →
  Value_err E key = None →
  (snappy_Decode C raw).2 = Some e →
  DB.Get E C key d = (None, Some e).
Proof.
  intros H1 H2 H3 H4. unfold DB.Get, Txn.View, Txn.Get, Txn.Value. simpl.
  rewrite H1, H2. simpl. rewrite H3.
  destruct (snappy_Decode C raw) as [dat err]. simpl in H4. by subst.
Qed.

Lemma Get_present key d raw :
  Get_err E key = None → db d !! key = Some raw →
  Value_err E key = None →
  (snappy_Decode C raw).2 = None →
  DB.Get E C key d = (Some (snappy_Decode C raw).1, None).
Proof.
  intros H1 H2 H3 H4. unfold DB.Get, Txn.View, Txn.Get, Txn.Value. simpl.
  rewrite H1, H2. simpl. rewrite H3.
  destruct (snappy_Decode C raw) as [dat err]. simpl in H4. by subst.
Qed.
End GetFacts.

(** C10.  Whenever [Get] returns an error, the value it returns with it is
    nil: the bytes read or decoded so far never accompany an error. *)
Theorem Get_error_value_nil (E : Engine) (C : Codec) (key : bytes)
    (d : BadgerDatabase) :
  (DB.Get E C key d).2 ≠ None → (DB.Get E C key d).1 = None.
Proof.
  unfold DB.Get.
  destruct (Txn.View _ _) as [dat [e|]]; simpl; done.
Qed.

Lemma Get_error_value_nil_witness :
  (DB.Get empty_key_engine leaky k1 damaged_db).2 = Some ErrCorrupt
  ∧ (DB.Get empty_key_engine leaky k1 damaged_db).1 = None.
Proof.
  split; [by vm_compute|].
  apply (Get_error_value_nil empty_key_engine leaky k1 damaged_db).
  by vm_compute.
Defined.

(** ** Put, Has and Delete *)

Section CrudFacts.
Context (E : Engine) (C : Codec).
Implicit Types (key value : bytes) (d : BadgerDatabase).

(** A [Put] that returns nil has stored the encoded value. *)
Lemma Put_success key value d d' :
  DB.Put E C key value d = (None, d') →
  Set_err E key (snappy_Encode C value) = None
  ∧ d' = mkDB (fn d) (<[key := snappy_Encode C value]> (db d)).
Proof.
  unfold DB.Put, Txn.Update, Txn.Set_. simpl.
  destruct (Set_err E key _); simpl; [by intros [=]|].
  destruct (Commit_err E _ _); simpl; [by intros [=]|].
  by intros [= <-].
Qed.

(** A [Put] that returns an error has changed nothing. *)
Lemma Put_failure key value d e :
  (DB.Put E C key value d).1 = Some e → (DB.Put E C key value d).2 = d.
Proof.
  unfold DB.Put, Txn.Update, Txn.Set_. simpl.
  destruct (Set_err E key _); simpl; [by destruct d|].
  destruct (Commit_err E _ _); simpl; [by destruct d | done].
Qed.

Lemma Has_spec key d :
  DB.Has E key d =
    match Get_err E key with
    | Some e => if decide (e = ErrKeyNotFound) then (false, None)
                else (false, Some e)
    | None => (bool_decide (is_Some (db d !! key)), None)
    end.
Proof.
  unfold DB.Has, Txn.View, Txn.Get. simpl.
  destruct (Get_err E key) as [e|]; simpl.
  - destruct (decide (e = ErrKeyNotFound)) as [->|Hne].
    + by rewrite decide_True.
    + rewrite decide_False; [done | congruence].
  - by destruct (db d !! key) as [raw|].
Qed.

(** [Has] never answers [true] for a key that has no entry. *)
Lemma Has_true_present key d :
  (DB.Has E key d).1 = true → is_Some (db d !! key).
Proof.
  rewrite Has_spec. destruct (Get_err E key) as [e|]; simpl.
  - by destruct (decide _).
  - by intros ?%bool_decide_eq_true.
Qed.

Lemma Delete_spec key d :
  DB.Delete E key d =
    match Delete_err E key with
    | Some e =>
        if decide (e = ErrKeyNotFound) then
          match Commit_err E (db d) (db d) with
          | Some e' => (Some e', d)
          | None => (None, d)
          end
        else (Some e, d)
    | None =>
        match Commit_err E (db d) (delete key (db d)) with
        | Some e' => (Some e', d)
        | None => (None, mkDB (fn d) (delete key (db d)))
        end
    end.
Proof.
  unfold DB.Delete, Txn.Update, Txn.Delete. destruct d as [f s]. simpl.
  destruct (Delete_err E key) as [e|]; simpl.
  - destruct (decide (e = ErrKeyNotFound)) as [->|Hne].
    + rewrite decide_True by done. simpl. by destruct (Commit_err E s s).
    + rewrite decide_False by congruence. done.
  - by destruct (Commit_err E s _).
Qed.
End CrudFacts.

(** C2.  After a [Put(k, v)] that returns nil, the engine holds the
    snappy-encoded value under [k], and [Get(k)] succeeds with a value equal
    to [v], provided the engine reads [k] without fault and snappy decodes
    what it encoded from [v]. *)
Theorem Put_Get_roundtrip (E : Engine) (C : Codec) (key value : bytes)
    (d d' : BadgerDatabase) :
  DB.Put E C key value d = (None, d') →
  Get_err E key = None →
  Value_err E key = None →
  snappy_Decode C (snappy_Encode C value) = (value, None) →
  db d' !! key = Some (snappy_Encode C value)
  ∧ DB.Get E C key d' = (Some value, None).
Proof.
  intros [_ ->]%Put_success Hget Hval Hrt. simpl.
  assert (Hraw : <[key := snappy_Encode C value]> (db d) !! key
                 = Some (snappy_Encode C value)) by apply lookup_insert_eq.
  split; [done|].
  rewrite (Get_present E C key _ (snappy_Encode C value)); try done.
  - by rewrite Hrt.
  - by rewrite Hrt.
Qed.

Lemma Put_Get_roundtrip_witness :
  db (DB.Put empty_key_engine framed k1 v1 empty_db).2 !! k1
    = Some (snappy_Encode framed v1)
  ∧ DB.Get empty_key_engine framed k1
      (DB.Put empty_key_engine framed k1 v1 empty_db).2 = (Some v1, None).
Proof.
  apply (Put_Get_roundtrip empty_key_engine framed k1 v1 empty_db);
    by vm_compute.
Defined.

(** C4.  When the engine has nothing but key-not-found to report for [k]:
    [Has(k)] on a store without [k] returns [(false, nil)], and [Has(k)]
    answers [true] exactly when the store has an entry for [k], always with
    a nil error. *)
Theorem Has_normalizes_not_found (E : Engine) (key : bytes)
    (d : BadgerDatabase) :
  Get_err E key = None ∨ Get_err E key = Some ErrKeyNotFound →
  (db d !! key = None → DB.Has E key d = (false, None))
  ∧ (Get_err E key = None →
     ((DB.Has E key d).1 = true ↔ is_Some (db d !! key)))
  ∧ (DB.Has E key d).2 = None.
Proof.
  intros Hq. rewrite Has_spec.
  destruct Hq as [-> | ->]; simpl.
  - split_and!; [| |done].
    + intros ->. rewrite bool_decide_eq_false_2; [done | by intros [? ?]].
    + intros _. apply bool_decide_eq_true.
  - split_and!; done.
Qed.

Lemma Has_normalizes_not_found_witness :
  DB.Has empty_key_engine k1 empty_db = (false, None)
  ∧ ((DB.Has empty_key_engine k1 damaged_db).1 = true
     ↔ is_Some (db damaged_db !! k1)).
Proof.
  split.
  - apply (Has_normalizes_not_found empty_key_engine k1 empty_db);
      [left | ]; by vm_compute.
  - apply (Has_normalizes_not_found empty_key_engine k1 damaged_db);
      [left | ]; by vm_compute.
Defined.

(** C5.  [Delete(k)] on a store without [k] returns nil when the engine has
    nothing but key-not-found to report and the commit goes through; and
    after any [Delete(k)] that returned nil, with key-not-found reported for
    absent keys only, [Has(k)] answers [false]. *)
Theorem Delete_idempotent (E : Engine) (key : bytes) (d : BadgerDatabase) :
  (db d !! key = None →
   Delete_err E key = None ∨ Delete_err E key = Some ErrKeyNotFound →
   Commit_err E (db d) (db d) = None →
   DB.Delete E key d = (None, d))
  ∧ (∀ d', DB.Delete E key d = (None, d') →
       (Delete_err E key = Some ErrKeyNotFound → db d !! key = None) →
       (DB.Has E key d').1 = false
       ∧ (Get_err E key = None → DB.Has E key d' = (false, None))).
Proof.
  split.
  - intros Habs Hq Hc. rewrite Delete_spec.
    destruct Hq as [-> | ->]; simpl.
    + rewrite delete_id by done. rewrite Hc. by destruct d.
    + by rewrite Hc.
  - intros d' Hdel Hnf.
    assert (Hgone : db d' !! key = None).
    { rewrite Delete_spec in Hdel.
      destruct (Delete_err E key) as [e|].
      - destruct (decide (e = ErrKeyNotFound)) as [->|]; [|done].
        destruct (Commit_err E _ _); [done|].
        injection Hdel as <-. by apply Hnf.
      - destruct (Commit_err E _ _); [done|].
        injection Hdel as <-. simpl. apply lookup_delete_eq. }
    rewrite Has_spec, Hgone.
    destruct (Get_err E key) as [e|]; simpl.
    + split; [by destruct (decide _) | done].
    + done.
Qed.

Lemma Delete_idempotent_witness :
  DB.Delete empty_key_engine k1 empty_db = (None, empty_db)
  ∧ (DB.Has empty_key_engine k1
       (DB.Delete empty_key_engine k1 damaged_db).2).1 = false.
Proof.
  split.
  - apply (Delete_idempotent empty_key_engine k1 empty_db);
      [ | left | ]; by vm_compute.
  - apply (proj2 (Delete_idempotent empty_key_engine k1 damaged_db)
             (DB.Delete empty_key_engine k1 damaged_db).2);
      by vm_compute.
Defined.

(** ** badgerBatch *)

Section BatchFacts.
Context (E : Engine) (C : Codec).

(** The closure returns what the entry visited last returned; the
    outcomes of the entries before it are overwritten. *)
Lemma Write_loop_last entries key value txn :
  (Batch.Write_loop E C (entries ++ [(key, value)]) txn).1
  = Set_err E key (snappy_Encode C value).
Proof.
  unfold Batch.Write_loop. rewrite foldl_app. simpl.
  destruct (foldl _ _ entries) as [err txn']. unfold Txn.Set_.
  by destruct (Set_err E key _).
Qed.

(** An entry the engine refuses is skipped, the others are set. *)
Lemma Write_loop_view entries txn :
  Txn.view (Batch.Write_loop E C entries txn).2
  = foldl (λ s '(key, value),
             if Set_err E key (snappy_Encode C value) is Some _ then s
             else <[key := snappy_Encode C value]> s)
          (Txn.view txn) entries.
Proof.
  unfold Batch.Write_loop.
  generalize (@None error). revert txn.
  induction entries as [|[k v] l IH]; intros txn err; simpl; [done|].
  unfold Txn.Set_ at 2.
  destruct (Set_err E k _); simpl; by rewrite IH.
Qed.
End BatchFacts.

(** C6.  Whatever [Write] returns, the batch it leaves behind has an empty
    accumulator and a [ValueSize] of 0; the same holds behind a table
    batch. *)
Theorem Write_clears_batch (E : Engine) (C : Codec) (range : MapRange)
    (bt : badgerBatch) (d : BadgerDatabase) (p : string) :
  b (Batch.Write E C range bt d).1.2 = ∅
  ∧ Batch.ValueSize (Batch.Write E C range bt d).1.2 = 0
  ∧ TableBatch.ValueSize (BatchI0 := badgerBatch_BatchI E C range)
      (TableBatch.Write (BatchI0 := badgerBatch_BatchI E C range)
         (mkTableBatch bt p) d).1.2 = 0.
Proof.
  unfold TableBatch.ValueSize, TableBatch.Write. simpl.
  unfold Batch.Write. destruct (Txn.Update _ _ _) as [err s]. done.
Qed.

(** C1.  A batch holding the zero-length key and the key ["a"], visited in
    that order, on an engine that refuses the zero-length key: the refusal
    is overwritten by the success of ["a"], [Write] returns nil and ["a"]
    is committed without the other entry. *)
Theorem Write_masks_refused_entry :
  sorted_range (b two_entries) = [([], v1); (key_a, v1)]
  ∧ Set_err empty_key_engine [] (snappy_Encode framed v1) = Some ErrEmptyKey
  ∧ (Batch.Write empty_key_engine framed sorted_range
       two_entries empty_db).1.1 = None
  ∧ db (Batch.Write empty_key_engine framed sorted_range
          two_entries empty_db).2 !! key_a = Some (snappy_Encode framed v1)
  ∧ db (Batch.Write empty_key_engine framed sorted_range
          two_entries empty_db).2 !! ([] : bytes) = None.
Proof. by vm_compute. Qed.

(** ** table and tableBatch *)

Section TableFacts.
Context {W D B : Type} `{!DatabaseI W D B} `{!BatchI W B}.

Lemma put_all_tableBatch entries (tb : tableBatch B) :
  put_all entries tb
  = mkTableBatch (put_all (prefix_all (batch_prefix tb) entries) (batch tb))
                 (batch_prefix tb).
Proof.
  revert tb. induction entries as [|[k v] l IH]; intros [bt p]; [done|].
  simpl. unfold TableBatch.Put. simpl.
  destruct (i_BatchPut (prefixed p k) v bt) as [err bt'] eqn:Hput.
  simpl. by rewrite IH.
Qed.

Lemma prefixed_nested (p1 p2 : string) key :
  prefixed p1 (prefixed p2 key)
  = String.list_byte_of_string p1 ++ String.list_byte_of_string p2 ++ key.
Proof. done. Qed.
End TableFacts.

(** C3.  On a table with prefix [p] over any store, [Put], [Get], [Has] and
    [Delete] of [k] are the store's own operations on [p ++ k]; a table over
    a table prefixes twice; and a batch made from the table, fed a run of
    entries and written, is the store's own batch fed the prefixed entries
    and written: same pending keys, same error, same resulting store. *)
Theorem table_prefixes_keys {W D B : Type} `{!DatabaseI W D B}
    `{!BatchI W B} (dt : table D) (key value : bytes) (w : W) :
  Table.Put dt key value w
    = i_Put (table_db dt) (String.list_byte_of_string (prefix dt) ++ key)
        value w
  ∧ Table.Get dt key w
    = i_Get (table_db dt) (String.list_byte_of_string (prefix dt) ++ key) w
  ∧ Table.Has dt key w
    = i_Has (table_db dt) (String.list_byte_of_string (prefix dt) ++ key) w
  ∧ Table.Delete dt key w
    = i_Delete (table_db dt) (String.list_byte_of_string (prefix dt) ++ key) w
  ∧ (∀ p2,
       Table.Put (mkTable dt p2) key value w
       = i_Put (table_db dt)
           (String.list_byte_of_string (prefix dt)
              ++ String.list_byte_of_string p2 ++ key) value w)
  ∧ (∀ entries,
       let through_table := put_all entries (Table.NewBatch dt) in
       let direct :=
         put_all (prefix_all (prefix dt) entries)
                 (i_NewBatch (table_db dt)) in
       batch through_table = direct
       ∧ (TableBatch.Write through_table w).1.1 = (i_Write direct w).1.1
       ∧ (TableBatch.Write through_table w).2 = (i_Write direct w).2).
Proof.
  split_and!; try done.
  intros entries. simpl.
  unfold Table.NewBatch. rewrite put_all_tableBatch. simpl.
  unfold TableBatch.Write. simpl.
  by destruct (i_Write _ w) as [[err bt] w'].
Qed.

(** The pending keys of a Badger batch fed through a table are the prefixed
    keys. *)
Lemma put_all_badgerBatch E C range entries (bt : badgerBatch) :
  b (put_all (BatchI0 := badgerBatch_BatchI E C range) entries bt)
  = foldl (λ m '(key, value), <[key := value]> m) (b bt) entries.
Proof.
  revert bt. induction entries as [|[k v] l IH]; intros bt; [done|].
  simpl. by rewrite IH.
Qed.

(** ** badgerIterator *)

Lemma bytes_leb_refl (x : bytes) : bytes_leb x x.
Proof. by destruct (bytes_leb_total x x). Qed.

Lemma byte_to_N_inj (a c : Byte.byte) : Byte.to_N a = Byte.to_N c → a = c.
Proof.
  intros H. apply (inj Some). by rewrite <-(Byte.of_to_N a), <-(Byte.of_to_N c), H.
Qed.

Lemma bytes_leb_antisym (x y : bytes) :
  bytes_leb x y → bytes_leb y x → x = y.
Proof.
  revert y. induction x as [|a x IH]; intros [|c y]; simpl; try done.
  destruct (N.ltb_spec (Byte.to_N a) (Byte.to_N c)),
           (N.ltb_spec (Byte.to_N c) (Byte.to_N a)); simpl; try lia.
  - by destruct (N.eqb_spec (Byte.to_N c) (Byte.to_N a)); [lia|].
  - by destruct (N.eqb_spec (Byte.to_N a) (Byte.to_N c)); [lia|].
  - destruct (N.eqb_spec (Byte.to_N a) (Byte.to_N c)) as [Heq|]; [|done].
    destruct (N.eqb_spec (Byte.to_N c) (Byte.to_N a)); [|done].
    intros H1 H2. by rewrite (byte_to_N_inj _ _ Heq), (IH y H1 H2).
Qed.

(** In a sorted list without duplicate keys, seeking a key that is there
    stops on it. *)
Lemma seek_from_present key raw (l : list (bytes * bytes)) :
  StronglySorted entry_le l → NoDup l.*1 → (key, raw) ∈ l →
  ∃ rest, EngineIter.seek_from key l = (key, raw) :: rest.
Proof.
  induction l as [|[k r] l IH]; intros Hs Hn Hel;
    [by apply elem_of_nil in Hel|].
  apply StronglySorted_inv in Hs as [Hs Hall].
  apply NoDup_cons in Hn as [Hk Hn]. simpl.
  apply elem_of_cons in Hel as [[= <- <-]|Hel].
  - exists l. by rewrite (Is_true_true_1 _ (bytes_leb_refl key)).
  - destruct (bytes_leb key k) eqn:Hle.
    + exfalso. apply Hk.
      rewrite Forall_forall in Hall. specialize (Hall _ Hel).
      unfold entry_le in Hall. simpl in Hall.
      apply Is_true_true_2 in Hle.
      rewrite (bytes_leb_antisym k key Hall Hle).
      apply list_elem_of_fmap. by exists (key, raw).
    + by apply IH.
Qed.

Lemma seek_from_subseteq key (l : list (bytes * bytes)) x :
  x ∈ EngineIter.seek_from key l → x ∈ l.
Proof.
  induction l as [|y l IH]; simpl; [done|].
  destruct (bytes_leb key y.1); [done|]. intros H. right. by apply IH.
Qed.

Lemma sorted_head_least (l : list (bytes * bytes)) x :
  StronglySorted entry_le l → x ∈ l →
  ∃ k0 r0 rest, l = (k0, r0) :: rest ∧ bytes_leb k0 x.1.
Proof.
  intros Hs Hel. destruct l as [|[k0 r0] rest]; [by apply elem_of_nil in Hel|].
  exists k0, r0, rest. split; [done|].
  apply StronglySorted_inv in Hs as [_ Hall].
  apply elem_of_cons in Hel as [->|Hel]; [apply bytes_leb_refl|].
  rewrite Forall_forall in Hall. apply (Hall _ Hel).
Qed.

Lemma snapshot_sorted (d : BadgerDatabase) :
  let sorted := EngineIter.entries (internIterator (Iter.NewIterator d)) in
  sorted ≡ₚ filter shown (map_to_list (db d))
  ∧ StronglySorted entry_le sorted.
Proof.
  simpl. split; [apply merge_sort_Permutation|].
  apply (StronglySorted_merge_sort _).
Qed.

Lemma snapshot_lookup (d : BadgerDatabase) k raw :
  (k, raw) ∈ EngineIter.entries (internIterator (Iter.NewIterator d))
  ↔ db d !! k = Some raw ∧ ¬ badgerPrefix `prefix_of` k.
Proof.
  unfold Iter.NewIterator, EngineIter.NewIterator. simpl.
  rewrite merge_sort_Permutation, list_elem_of_filter, elem_of_map_to_list.
  unfold shown. simpl. tauto.
Qed.

Lemma snapshot_NoDup (d : BadgerDatabase) :
  NoDup (EngineIter.entries (internIterator (Iter.NewIterator d))).*1.
Proof.
  unfold Iter.NewIterator, EngineIter.NewIterator. simpl.
  rewrite merge_sort_Permutation.
  eapply sublist_NoDup; [apply (NoDup_fst_map_to_list (db d))|].
  apply fmap_sublist, sublist_filter.
Qed.

Lemma snapshot_length (d : BadgerDatabase) :
  length (EngineIter.entries (internIterator (Iter.NewIterator d)))
  = length (filter shown (map_to_list (db d))).
Proof. destruct (snapshot_sorted d) as [H _]. by rewrite H. Qed.

Lemma moved_to_same (it : badgerIterator) :
  initialised it = true →
  Iter.moved_to it (EngineIter.cur (internIterator it)) = it.
Proof. destruct it as [t [e c] r i]. simpl. by intros ->. Qed.

Lemma moved_to_twice (it : badgerIterator) l l' :
  Iter.moved_to (Iter.moved_to it l) l' = Iter.moved_to it l'.
Proof. done. Qed.

Lemma Valid_not_nil (it : EngineIter.t) :
  EngineIter.Valid it = bool_decide (EngineIter.cur it ≠ []).
Proof. unfold EngineIter.Valid. by destruct (EngineIter.cur it). Qed.

Lemma Key_moved_to_drop (it : badgerIterator) (l : list (bytes * bytes)) n :
  Iter.Key (Iter.moved_to it (drop n l)) = fst <$> l !! n.
Proof.
  unfold Iter.Key, EngineIter.Item. simpl.
  replace (l !! n) with (drop n l !! 0%nat)
    by by rewrite lookup_drop, Nat.add_0_r.
  by destruct (drop n l) as [|[k r] rest].
Qed.

(** The first [Next] of a cursor rewinds it. *)
Lemma Next_fresh (it : badgerIterator) :
  initialised it = false →
  Iter.Next it
  = Some (bool_decide (EngineIter.entries (internIterator it) ≠ []),
          Iter.moved_to it (EngineIter.entries (internIterator it))).
Proof. intros H. unfold Iter.Next. rewrite H. simpl. by rewrite Valid_not_nil. Qed.

(** A later [Next] moves on by one entry, and panics without a current
    item. *)
Lemma Next_started (it : badgerIterator) :
  initialised it = true →
  Iter.Next it
  = match EngineIter.cur (internIterator it) with
    | [] => None
    | _ :: rest => Some (bool_decide (rest ≠ []), Iter.moved_to it rest)
    end.
Proof.
  intros H. unfold Iter.Next, EngineIter.Next, Iter.moved_to. rewrite H. simpl.
  destruct (EngineIter.cur (internIterator it)) as [|x rest]; simpl; [done|].
  by rewrite Valid_not_nil.
Qed.

Lemma Nexts_started n (it : badgerIterator) :
  initialised it = true →
  (n ≤ length (EngineIter.cur (internIterator it)))%nat →
  Iter.Nexts n it
  = Some ((λ i, bool_decide
                  (S i < length (EngineIter.cur (internIterator it)))%nat)
            <$> seq 0 n,
          Iter.moved_to it (drop n (EngineIter.cur (internIterator it)))).
Proof.
  revert it. induction n as [|n IH]; intros it Hi Hn.
  - simpl. by rewrite drop_0, moved_to_same.
  - cbn [Iter.Nexts]. rewrite Next_started by done.
    destruct (EngineIter.cur (internIterator it)) as [|x rest] eqn:Hc;
      [simpl in Hn; lia|].
    simpl in Hn. simpl. rewrite (IH (Iter.moved_to it rest)); [|done|simpl; lia].
    simpl. f_equal. f_equal.
    + f_equal.
      * apply bool_decide_ext. destruct rest; simpl; [|split; [lia|done]].
        split; [done|lia].
      * rewrite <-fmap_S_seq, <-list_fmap_compose.
        apply list_fmap_ext. intros i j _. simpl.
        apply bool_decide_ext. lia.
Qed.

Lemma Nexts_started_panics n (it : badgerIterator) :
  initialised it = true →
  (length (EngineIter.cur (internIterator it)) < n)%nat →
  Iter.Nexts n it = None.
Proof.
  revert it. induction n as [|n IH]; intros it Hi Hn; [lia|].
  cbn [Iter.Nexts]. rewrite Next_started by done.
  destruct (EngineIter.cur (internIterator it)) as [|x rest] eqn:Hc; [done|].
  simpl in Hn. simpl. rewrite (IH (Iter.moved_to it rest)); [done|done|].
  simpl. lia.
Qed.

Lemma Nexts_fresh n (it : badgerIterator) :
  initialised it = false →
  (n ≤ length (EngineIter.entries (internIterator it)))%nat →
  Iter.Nexts (S n) it
  = Some ((λ i, bool_decide
                  (i < length (EngineIter.entries (internIterator it)))%nat)
            <$> seq 0 (S n),
          Iter.moved_to it (drop n (EngineIter.entries (internIterator it)))).
Proof.
  intros Hi Hn. cbn [Iter.Nexts]. rewrite Next_fresh by done. simpl.
  rewrite Nexts_started; [|done|done]. simpl. f_equal. f_equal. f_equal.
  - apply bool_decide_ext.
    destruct (EngineIter.entries (internIterator it)); simpl;
      [split; [done|lia] | split; [lia|done]].
  - rewrite <-fmap_S_seq, <-list_fmap_compose. done.
Qed.

Lemma Nexts_fresh_panics n (it : badgerIterator) :
  initialised it = false →
  (length (EngineIter.entries (internIterator it)) < n)%nat →
  Iter.Nexts (S n) it = None.
Proof.
  intros Hi Hn. cbn [Iter.Nexts]. rewrite Next_fresh by done. simpl.
  by rewrite Nexts_started_panics.
Qed.

Section CursorFacts.
Context (E : Engine).

Lemma cursor_at (it : badgerIterator) k raw rest :
  EngineIter.cur (internIterator it) = (k, raw) :: rest →
  Iter.Key it = Some k
  ∧ Iter.Value E it
    = Some (if Value_err E k is Some _ then None else Some raw).
Proof.
  intros H. unfold Iter.Key, Iter.Value, EngineIter.Item, Txn.Value.
  rewrite H. simpl. by destruct (Value_err E k).
Qed.

Lemma Key_cur (it : badgerIterator) k :
  Iter.Key it = Some k →
  ∃ raw rest, EngineIter.cur (internIterator it) = (k, raw) :: rest.
Proof.
  unfold Iter.Key, EngineIter.Item.
  destruct (EngineIter.cur (internIterator it)) as [|[k' raw] rest];
    simpl; [done|].
  intros [= ->]. by eexists _, _.
Qed.

(** Wherever a cursor gets, it shows the snapshot it was made on and stands
    on an entry of it. *)
Lemma reaches_snapshot (it0 it : badgerIterator) :
  Iter.reaches it0 it →
  (∀ x, x ∈ EngineIter.cur (internIterator it0) →
        x ∈ EngineIter.entries (internIterator it0)) →
  EngineIter.entries (internIterator it)
    = EngineIter.entries (internIterator it0)
  ∧ (∀ x, x ∈ EngineIter.cur (internIterator it) →
          x ∈ EngineIter.entries (internIterator it0)).
Proof.
  intros Hr H0. induction Hr as [|it answer it' Hr [IHe IHc] Hn
                                 |key it Hr [IHe IHc]]; [done| |].
  - destruct (initialised it) eqn:Hi.
    + rewrite Next_started in Hn by done.
      destruct (EngineIter.cur (internIterator it)) as [|x rest]; [done|].
      injection Hn as _ <-. simpl. split; [done|].
      intros y Hy. apply IHc. by right.
    + rewrite Next_fresh in Hn by done. injection Hn as _ <-. simpl.
      split; [done|]. intros y. by rewrite IHe.
  - simpl. split; [done|]. intros y Hy.
    apply seek_from_subseteq in Hy. by rewrite IHe in Hy.
Qed.
End CursorFacts.

(** C7.  On a fresh cursor the snapshot is the store's entries, those under
    the engine's own prefix left out, in ascending key order.  The first
    [Next], also after a [Seek], puts the cursor on the first of them, the
    smallest such key, and answers whether there is any; every later
    [Next] on a cursor that has an item moves it one entry on; and in a run
    of calls the call number [n + 1] answers [false] exactly when [n] is
    the number of entries of the snapshot. *)
Theorem Next_walks_snapshot (d : BadgerDatabase) :
  let it0 := Iter.NewIterator d in
  let sorted := EngineIter.entries (internIterator it0) in
  (sorted ≡ₚ filter shown (map_to_list (db d))
   ∧ StronglySorted entry_le sorted)
  ∧ Iter.Next it0 = Some (bool_decide (sorted ≠ []), Iter.moved_to it0 sorted)
  ∧ (∀ key, Iter.Next (Iter.Seek key it0)
            = Some (bool_decide (sorted ≠ []), Iter.moved_to it0 sorted))
  ∧ (∀ key raw, db d !! key = Some raw → ¬ badgerPrefix `prefix_of` key →
       ∃ k0, Iter.Key (Iter.moved_to it0 sorted) = Some k0
             ∧ bytes_leb k0 key)
  ∧ (∀ it x rest, initialised it = true →
       EngineIter.cur (internIterator it) = x :: rest →
       Iter.Next it = Some (bool_decide (rest ≠ []), Iter.moved_to it rest))
  ∧ (∀ n, (n ≤ length sorted)%nat →
       Iter.Nexts (S n) it0
       = Some ((λ i, bool_decide (i < length sorted)%nat) <$> seq 0 (S n),
               Iter.moved_to it0 (drop n sorted))).
Proof.
  intros it0 sorted.
  pose proof (snapshot_sorted d) as [Hperm Hsorted].
  split_and!; try done.
  - by apply Next_fresh.
  - intros key. by rewrite Next_fresh.
  - intros key raw Hin Hshown.
    assert (Hel : (key, raw) ∈ sorted) by by apply snapshot_lookup.
    destruct (sorted_head_least _ _ Hsorted Hel) as (k0 & r0 & rest & Hs & Hle).
    exists k0. split; [|done].
    unfold sorted, it0. by rewrite Hs.
  - intros it x rest Hi Hc. by rewrite Next_started, Hc.
  - intros n Hn. by apply Nexts_fresh.
Qed.

Lemma Next_walks_snapshot_witness :
  Iter.Key (Iter.moved_to (Iter.NewIterator two_key_db)
              (EngineIter.entries
                 (internIterator (Iter.NewIterator two_key_db))))
  = Some key_a
  ∧ fst <$> Iter.Nexts 3 (Iter.NewIterator two_key_db)
    = Some [true; true; false].
Proof.
  split.
  - destruct (proj1 (proj2 (proj2 (proj2 (Next_walks_snapshot two_key_db))))
               key_a v1) as (k0 & Hk & _);
      [by vm_compute | apply (bool_decide_unpack _); by vm_compute |].
    rewrite Hk. by vm_compute.
  - rewrite (proj2 (proj2 (proj2 (proj2 (proj2
               (Next_walks_snapshot two_key_db))))) 2%nat);
      by vm_compute.
Defined.

(** Counterexample to C7 as the specification words it.  On a store whose
    only entry is under the engine's own prefix the entry is there, and the
    first [Next] answers [false]; with the key ["a"] besides, the first
    [Next] lands on ["a"] although the other key is smaller. *)
Lemma Next_passes_over_badger_keys :
  DB.Has quiet_engine badger_key hidden_db = (true, None)
  ∧ fst <$> Iter.Next (Iter.NewIterator hidden_db) = Some false
  ∧ bytes_leb badger_key key_a
  ∧ DB.Has quiet_engine badger_key half_hidden_db = (true, None)
  ∧ (Iter.Key ∘ snd) <$> Iter.Next (Iter.NewIterator half_hidden_db)
    = Some (Some key_a).
Proof. by vm_compute. Qed.

(** ** What the cursor reads *)

(** C8.  After a [Put(k, v)] that returned nil and on an engine that reads
    [k] without fault: wherever a cursor made afterwards stands on [k],
    however it got there by [Next] and [Seek], [Value] returns the stored
    bytes, [Encode(v)], and so not [v] whenever encoding changes [v]; and
    when [k] is not under the engine's own prefix, the cursor does get to
    [k], by calling [Next] and by [Seek(k)]. *)
Theorem cursor_Value_is_raw (E : Engine) (C : Codec) (key value : bytes)
    (d d' : BadgerDatabase) :
  DB.Put E C key value d = (None, d') →
  Value_err E key = None →
  let it0 := Iter.NewIterator d' in
  (∀ it, Iter.reaches it0 it → Iter.Key it = Some key →
     Iter.Value E it = Some (Some (snappy_Encode C value)))
  ∧ (snappy_Encode C value ≠ value →
     ∀ it, Iter.reaches it0 it → Iter.Key it = Some key →
       Iter.Value E it ≠ Some (Some value))
  ∧ (¬ badgerPrefix `prefix_of` key →
     (∃ n answers it,
        Iter.Nexts (S n) it0 = Some (answers, it) ∧ Iter.Key it = Some key)
     ∧ Iter.Key (Iter.Seek key it0) = Some key
     ∧ Iter.Value E (Iter.Seek key it0)
       = Some (Some (snappy_Encode C value))).
Proof.
  intros [_ ->]%Put_success Hval it0.
  set (d' := mkDB _ _) in it0.
  assert (Hraw : db d' !! key = Some (snappy_Encode C value))
    by apply lookup_insert_eq.
  assert (Hat : ∀ it, Iter.reaches it0 it → Iter.Key it = Some key →
            Iter.Value E it = Some (Some (snappy_Encode C value))).
  { intros it Hr Hk.
    destruct (reaches_snapshot it0 it Hr) as [_ Hc];
      [intros x Hx; by apply elem_of_nil in Hx|].
    apply Key_cur in Hk as (raw & rest & Hcur).
    destruct (cursor_at E it key raw rest Hcur) as [_ Hv].
    rewrite Hval in Hv. rewrite Hv.
    assert (Hin : (key, raw) ∈ EngineIter.entries (internIterator it0)).
    { apply Hc. rewrite Hcur. by left. }
    apply snapshot_lookup in Hin as [Hin _].
    rewrite Hraw in Hin. by injection Hin as <-. }
  split_and!; [done | |].
  - intros Hne it Hr Hk. rewrite (Hat it Hr Hk). congruence.
  - intros Hshown.
    assert (Hel : (key, snappy_Encode C value)
                  ∈ EngineIter.entries (internIterator it0))
      by by apply snapshot_lookup.
    destruct (snapshot_sorted d') as [_ Hsorted].
    destruct (seek_from_present key _ _ Hsorted (snapshot_NoDup d') Hel)
      as [rest Hseek].
    destruct (cursor_at E (Iter.Seek key it0) _ _ _ Hseek) as [Hk Hv].
    rewrite Hval in Hv. split_and!; [|done|done].
    apply list_elem_of_lookup in Hel as [n Hn].
    pose proof (lookup_lt_Some _ _ _ Hn) as Hlt.
    exists n. eexists _, _. split; [apply Nexts_fresh; [done | by apply Nat.lt_le_incl]|].
    by rewrite Key_moved_to_drop, Hn.
Qed.

Lemma cursor_Value_is_raw_witness :
  Iter.Value empty_key_engine
    (Iter.Seek k1 (Iter.NewIterator
                     (DB.Put empty_key_engine framed k1 v1 empty_db).2))
  = Some (Some (snappy_Encode framed v1)).
Proof.
  apply (cursor_Value_is_raw empty_key_engine framed k1 v1 empty_db).
  - by vm_compute.
  - by vm_compute.
  - apply (bool_decide_unpack _). by vm_compute.
Defined.

(** ** The garbage-collection loop *)

Section GCFacts.
Context (E : Engine).

Lemma runGC_ticks n : ticks (GC.runGC E n) = n.
Proof.
  induction n as [|n IH]; [done|]. simpl. unfold GC.cycle.
  destruct (GC.collectGarbage E _). simpl. by rewrite IH.
Qed.

Lemma runGC_clock n : clock (GC.runGC E n) = Z.of_nat n * cgInterval.
Proof.
  induction n as [|n IH]; [done|]. simpl GC.runGC. unfold GC.cycle.
  destruct (GC.collectGarbage E _). simpl. rewrite IH. lia.
Qed.
End GCFacts.

(** C9.  A cycle calls purge-old-versions and then, only if the purge
    succeeded, the value-log collector with ratio 1/2, and returns the first
    error.  The loop runs one cycle per tick, the ticks 10 minutes apart on
    the ticker's clock; a cycle's error ends up in the log and nowhere else,
    and the next engine calls are those of the next tick's cycle. *)
Theorem reclaim_cycle (E : Engine) (n : nat) :
  (∀ e, Purge_err E n = Some e →
     GC.collectGarbage E n = (Some e, [PurgeOlderVersions]))
  ∧ (Purge_err E n = None →
     GC.collectGarbage E n
     = (GC_err E n (1 # 2), [PurgeOlderVersions; RunValueLogGC (1 # 2)]))
  ∧ ticks (GC.runGC E n) = n
  ∧ clock (GC.runGC E n) = Z.of_nat n * 600000000000
  ∧ clock (GC.runGC E (S n)) - clock (GC.runGC E n) = 10 * 60 * 1000000000
  ∧ calls (GC.runGC E (S n))
    = calls (GC.runGC E n) ++ (GC.collectGarbage E n).2
  ∧ logged (GC.runGC E (S n))
    = logged (GC.runGC E n)
      ++ [LogInfo "Start garbage collecting...";
          match (GC.collectGarbage E n).1 with
          | None => LogInfo "Garbage collected"
          | Some err => LogError "Failed to collect garbage" err
          end].
Proof.
  split_and!.
  - intros e H. unfold GC.collectGarbage. by rewrite H.
  - intros H. unfold GC.collectGarbage. by rewrite H.
  - apply runGC_ticks.
  - by rewrite runGC_clock.
  - rewrite !runGC_clock. unfold cgInterval, Minute, Second. lia.
  - simpl GC.runGC. unfold GC.cycle. rewrite runGC_ticks.
    by destruct (GC.collectGarbage E n).
  - simpl GC.runGC. unfold GC.cycle. rewrite runGC_ticks.
    destruct (GC.collectGarbage E n) as [[e|] made]; simpl;
      by rewrite <-app_assoc.
Qed.

Lemma reclaim_cycle_witness :
  GC.collectGarbage odd_purge_engine 1
    = (Some (ErrEngine 7), [PurgeOlderVersions])
  ∧ GC.collectGarbage odd_purge_engine 2
    = (None, [PurgeOlderVersions; RunValueLogGC (1 # 2)])
  ∧ calls (GC.runGC odd_purge_engine 3)
    = [PurgeOlderVersions; RunValueLogGC (1 # 2);
       PurgeOlderVersions;
       PurgeOlderVersions; RunValueLogGC (1 # 2)].
Proof.
  split_and!.
  - apply (reclaim_cycle odd_purge_engine 1). by vm_compute.
  - apply (reclaim_cycle odd_purge_engine 2). by vm_compute.
  - by vm_compute.
Defined.

(** * Further properties *)

(** ** The store's methods *)

Section StoreFacts.
Context (E : Engine) (C : Codec).
Implicit Types (key value : bytes) (d : BadgerDatabase).

(** [Get] and [Has] on a key look at nothing but that key's entry. *)
Lemma Get_local key d d2 :
  db d !! key = db d2 !! key → DB.Get E C key d = DB.Get E C key d2.
Proof.
  intros H. unfold DB.Get, Txn.View, Txn.Get. simpl. by rewrite H.
Qed.

Lemma Has_local key d d2 :
  db d !! key = db d2 !! key → DB.Has E key d = DB.Has E key d2.
Proof. intros H. by rewrite !Has_spec, H. Qed.

Lemma Delete_failure key d :
  (DB.Delete E key d).1 ≠ None → (DB.Delete E key d).2 = d.
Proof.
  rewrite Delete_spec. destruct (Delete_err E key) as [e|].
  - destruct (decide _); [|done]. by destruct (Commit_err E _ _).
  - by destruct (Commit_err E _ _).
Qed.
End StoreFacts.

(** X1.  A [Put] that returns an error leaves the store as it was. *)
Theorem Put_error_keeps_store (E : Engine) (C : Codec) (key value : bytes)
    (d : BadgerDatabase) :
  (DB.Put E C key value d).1 ≠ None → (DB.Put E C key value d).2 = d.
Proof.
  destruct (DB.Put E C key value d).1 as [e|] eqn:H; [|done].
  intros _. by apply (Put_failure E C key value d e).
Qed.

Lemma Put_error_keeps_store_witness :
  (DB.Put empty_key_engine framed [] v1 damaged_db).1 = Some ErrEmptyKey
  ∧ (DB.Put empty_key_engine framed [] v1 damaged_db).2 = damaged_db.
Proof.
  split; [by vm_compute|].
  apply (Put_error_keeps_store empty_key_engine framed [] v1 damaged_db).
  by vm_compute.
Defined.

(** X2.  A [Put(k, v)] that returns nil replaces the entry of [k], whatever
    it was, and nothing else: every other key reads, through [Get] and
    [Has], as before, and the path of the store stays. *)
Theorem Put_touches_one_key (E : Engine) (C : Codec) (key value : bytes)
    (d d' : BadgerDatabase) :
  DB.Put E C key value d = (None, d') →
  db d' = <[key := snappy_Encode C value]> (db d)
  ∧ DB.Path d' = DB.Path d
  ∧ (∀ k, k ≠ key →
       DB.Get E C k d' = DB.Get E C k d ∧ DB.Has E k d' = DB.Has E k d).
Proof.
  intros [_ ->]%Put_success. split_and!; try done.
  intros k Hne.
  assert (H : db (mkDB (fn d) (<[key := snappy_Encode C value]> (db d))) !! k
              = db d !! k) by by apply lookup_insert_ne.
  split; [by apply Get_local | by apply Has_local].
Qed.

Lemma Put_touches_one_key_witness :
  DB.Get empty_key_engine framed k1
    (DB.Put empty_key_engine framed key_a v1 damaged_db).2
  = DB.Get empty_key_engine framed k1 damaged_db.
Proof.
  apply (Put_touches_one_key empty_key_engine framed key_a v1 damaged_db
           (DB.Put empty_key_engine framed key_a v1 damaged_db).2);
    by vm_compute.
Defined.

(** X3.  For a key without an entry, which the engine looks up without
    fault, [Get] returns nil with key-not-found, where [Has] returns false
    with a nil error: [Get] passes the engine's not-found on, [Has] swallows
    it. *)
Theorem Get_passes_not_found (E : Engine) (C : Codec) (key : bytes)
    (d : BadgerDatabase) :
  Get_err E key = None → db d !! key = None →
  DB.Get E C key d = (None, Some ErrKeyNotFound)
  ∧ DB.Has E key d = (false, None).
Proof.
  intros Hg Ha. split; [by apply Get_absent|].
  by rewrite Has_spec, Hg, Ha.
Qed.

Lemma Get_passes_not_found_witness :
  DB.Get empty_key_engine framed k1 empty_db = (None, Some ErrKeyNotFound)
  ∧ DB.Has empty_key_engine k1 empty_db = (false, None).
Proof.
  apply (Get_passes_not_found empty_key_engine framed k1 empty_db);
    by vm_compute.
Defined.

(** X4.  An entry whose stored bytes the decoder rejects: [Get] returns nil
    with the decoder's error, while [Has] still answers true. *)
Theorem Get_surfaces_decode_error (E : Engine) (C : Codec) (key raw : bytes)
    (d : BadgerDatabase) (e : error) :
  Get_err E key = None → Value_err E key = None →
  db d !! key = Some raw →
  (snappy_Decode C raw).2 = Some e →
  DB.Get E C key d = (None, Some e) ∧ DB.Has E key d = (true, None).
Proof.
  intros Hg Hv Hraw Hdec. split.
  - by apply (Get_decode_failure E C key d raw e).
  - by rewrite Has_spec, Hg, Hraw.
Qed.

Lemma Get_surfaces_decode_error_witness :
  DB.Get empty_key_engine framed k1 damaged_db = (None, Some ErrCorrupt)
  ∧ DB.Has empty_key_engine k1 damaged_db = (true, None).
Proof.
  apply (Get_surfaces_decode_error empty_key_engine framed k1 v1 damaged_db);
    by vm_compute.
Defined.

(** X5.  [Has] never answers true together with an error, nor for a key
    without an entry. *)
Theorem Has_true_is_sound (E : Engine) (key : bytes) (d : BadgerDatabase) :
  (DB.Has E key d).1 = true →
  (DB.Has E key d).2 = None ∧ is_Some (db d !! key).
Proof.
  intros H. split; [|by apply (Has_true_present E key d)].
  revert H. rewrite Has_spec.
  destruct (Get_err E key) as [e|]; [by destruct (decide _)|done].
Qed.

Lemma Has_true_is_sound_witness :
  (DB.Has empty_key_engine k1 damaged_db).2 = None
  ∧ is_Some (db damaged_db !! k1).
Proof.
  apply (Has_true_is_sound empty_key_engine k1 damaged_db). by vm_compute.
Defined.

(** X6.  A [Delete(k)] that returns nil on an engine that has no fault to
    report for [k] removes the entry of [k] and nothing else: [Get(k)] then
    returns key-not-found, every other key reads as before. *)
Theorem Delete_removes_one_key (E : Engine) (C : Codec) (key : bytes)
    (d d' : BadgerDatabase) :
  DB.Delete E key d = (None, d') →
  Delete_err E key = None →
  db d' = delete key (db d)
  ∧ DB.Path d' = DB.Path d
  ∧ (Get_err E key = None →
     DB.Get E C key d' = (None, Some ErrKeyNotFound))
  ∧ (∀ k, k ≠ key →
       DB.Get E C k d' = DB.Get E C k d ∧ DB.Has E k d' = DB.Has E k d).
Proof.
  rewrite Delete_spec. intros H Hq. rewrite Hq in H.
  destruct (Commit_err E _ _); [done|]. injection H as <-.
  split_and!; try done.
  - intros Hg. apply Get_absent; [done|]. apply lookup_delete_eq.
  - intros k Hne.
    assert (H : db (mkDB (fn d) (delete key (db d))) !! k = db d !! k)
      by by apply lookup_delete_ne.
    split; [by apply Get_local | by apply Has_local].
Qed.

Lemma Delete_removes_one_key_witness :
  DB.Get empty_key_engine framed k1
    (DB.Delete empty_key_engine k1 damaged_db).2
  = (None, Some ErrKeyNotFound).
Proof.
  apply (Delete_removes_one_key empty_key_engine framed k1 damaged_db
           (DB.Delete empty_key_engine k1 damaged_db).2);
    by vm_compute.
Defined.

(** X7.  A [Delete] that returns an error leaves the store as it was. *)
Theorem Delete_error_keeps_store (E : Engine) (key : bytes)
    (d : BadgerDatabase) :
  (DB.Delete E key d).1 ≠ None → (DB.Delete E key d).2 = d.
Proof. apply Delete_failure. Qed.

Lemma Delete_error_keeps_store_witness :
  (DB.Delete empty_key_engine [] damaged_db).1 = Some ErrEmptyKey
  ∧ (DB.Delete empty_key_engine [] damaged_db).2 = damaged_db.
Proof.
  split; [by vm_compute|].
  apply (Delete_error_keeps_store empty_key_engine [] damaged_db).
  by vm_compute.
Defined.

(** ** The batch *)

Lemma int_wrap_small (z : Z) : - 2 ^ 63 ≤ z < 2 ^ 63 → int_wrap z = z.
Proof. intros H. unfold int_wrap. rewrite Z.mod_small; lia. Qed.

(** Folding single-key updates over a list: a key the list does not name is
    left alone, a key it names once gets that entry's update. *)
Section FoldUpdates.
Context (g : bytes → bytes → option bytes).

Local Abbreviation step :=
  (λ (s : gmap bytes bytes) '(key, value),
     match g key value with Some x => <[key := x]> s | None => s end).

Lemma fold_updates_notin (l : list (bytes * bytes)) s k :
  k ∉ l.*1 → foldl step s l !! k = s !! k.
Proof.
  revert s. induction l as [|[k0 v0] l IH]; intros s Hk; [done|].
  simpl in *. apply not_elem_of_cons in Hk as [Hne Hk].
  rewrite IH by done. destruct (g k0 v0); [|done].
  by apply lookup_insert_ne.
Qed.

Lemma fold_updates_in (l : list (bytes * bytes)) s k v :
  NoDup l.*1 → (k, v) ∈ l →
  foldl step s l !! k
  = match g k v with Some x => Some x | None => s !! k end.
Proof.
  revert s. induction l as [|[k0 v0] l IH]; intros s Hn Hel;
    [by apply elem_of_nil in Hel|].
  simpl in *. apply NoDup_cons in Hn as [Hk0 Hn].
  apply elem_of_cons in Hel as [[= -> ->]|Hel].
  - rewrite fold_updates_notin by done.
    destruct (g k0 v0); [apply lookup_insert_eq | done].
  - rewrite IH by done. destruct (g k v); [done|].
    destruct (g k0 v0); [|done]. apply lookup_insert_ne.
    intros ->. apply Hk0. apply list_elem_of_fmap. by exists (k, v).
Qed.
End FoldUpdates.

Section BatchWriteFacts.
Context (E : Engine) (C : Codec) (range : MapRange).
Implicit Types (bt : badgerBatch) (d : BadgerDatabase).

(** What the engine makes of an entry. *)
Local Abbreviation accepted :=
  (λ key value : bytes,
     match Set_err E key (snappy_Encode C value) with
     | Some _ => None
     | None => Some (snappy_Encode C value)
     end).

Lemma Write_loop_updates entries txn :
  Txn.view (Batch.Write_loop E C entries txn).2
  = foldl (λ s '(key, value),
             match accepted key value with
             | Some x => <[key := x]> s
             | None => s
             end) (Txn.view txn) entries.
Proof.
  rewrite Write_loop_view. generalize (Txn.view txn) as s.
  induction entries as [|[k v] l IH]; intros s; [done|].
  cbn [foldl]. rewrite IH. by destruct (Set_err E k _).
Qed.

Lemma Write_spec bt d :
  Batch.Write E C range bt d
  = let r := Batch.Write_loop E C (range (b bt)) (Txn.mk (db d)) in
    match r.1 with
    | Some e => (Some e, mkBatch ∅ 0, d)
    | None =>
        match Commit_err E (db d) (Txn.view r.2) with
        | Some e => (Some e, mkBatch ∅ 0, d)
        | None => (None, mkBatch ∅ 0, mkDB (fn d) (Txn.view r.2))
        end
    end.
Proof.
  unfold Batch.Write, Txn.Update. destruct d as [f s]. simpl.
  destruct (Batch.Write_loop E C _ _) as [[e|] txn]; simpl; [done|].
  by destruct (Commit_err E s _).
Qed.

Lemma range_lookup bt k v :
  range_ok range → (k, v) ∈ range (b bt) ↔ b bt !! k = Some v.
Proof. intros H. rewrite (H (b bt)). apply elem_of_map_to_list. Qed.

Lemma range_NoDup bt : range_ok range → NoDup (range (b bt)).*1.
Proof. intros H. rewrite (H (b bt)). apply NoDup_fst_map_to_list. Qed.

Lemma range_notin bt k :
  range_ok range → b bt !! k = None → k ∉ (range (b bt)).*1.
Proof.
  intros H Hk [[k' v] [-> Hel]]%list_elem_of_fmap. simpl in Hk.
  apply range_lookup in Hel; [|done]. congruence.
Qed.

(** The state the closure of [Write] leaves in the transaction. *)
Lemma Write_loop_lookup bt d k :
  range_ok range →
  Txn.view (Batch.Write_loop E C (range (b bt)) (Txn.mk (db d))).2 !! k
  = match b bt !! k with
    | Some v =>
        if Set_err E k (snappy_Encode C v) is Some _ then db d !! k
        else Some (snappy_Encode C v)
    | None => db d !! k
    end.
Proof.
  intros Hr. rewrite Write_loop_updates. simpl.
  destruct (b bt !! k) as [v|] eqn:Hk.
  - rewrite (fold_updates_in _ _ _ k v);
      [by destruct (Set_err E k _) | by apply range_NoDup
      | by apply range_lookup].
  - by rewrite fold_updates_notin by by apply range_notin.
Qed.
End BatchWriteFacts.

(** X8.  After a [Write] that returns nil, whatever the order of the visit,
    the store holds the encoded value of every entry of the batch that the
    engine accepted; an entry it refused, and every key outside the batch,
    reads as before. *)
Theorem Write_commits_accepted (E : Engine) (C : Codec) (range : MapRange)
    (bt : badgerBatch) (d : BadgerDatabase) :
  range_ok range →
  (Batch.Write E C range bt d).1.1 = None →
  ∀ k, db (Batch.Write E C range bt d).2 !! k
       = match b bt !! k with
         | Some v =>
             if Set_err E k (snappy_Encode C v) is Some _ then db d !! k
             else Some (snappy_Encode C v)
         | None => db d !! k
         end.
Proof.
  intros Hr Hnil k. rewrite Write_spec in Hnil |- *. simpl in *.
  destruct (Batch.Write_loop E C _ _).1; [done|].
  destruct (Commit_err E _ _); [done|]. simpl.
  by apply Write_loop_lookup.
Qed.

Lemma Write_commits_accepted_witness :
  db (Batch.Write empty_key_engine framed sorted_range
        two_entries damaged_db).2 !! key_a = Some (snappy_Encode framed v1)
  ∧ db (Batch.Write empty_key_engine framed sorted_range
          two_entries damaged_db).2 !! k1 = Some v1.
Proof.
  split.
  - rewrite (Write_commits_accepted empty_key_engine framed sorted_range
               two_entries damaged_db sorted_range_ok); by vm_compute.
  - rewrite (Write_commits_accepted empty_key_engine framed sorted_range
               two_entries damaged_db sorted_range_ok); by vm_compute.
Defined.

(** X9.  A [Write] that returns an error, from the closure or from the
    commit, leaves the store as it was. *)
Theorem Write_error_keeps_store (E : Engine) (C : Codec) (range : MapRange)
    (bt : badgerBatch) (d : BadgerDatabase) :
  (Batch.Write E C range bt d).1.1 ≠ None →
  (Batch.Write E C range bt d).2 = d.
Proof.
  rewrite Write_spec. simpl.
  destruct (Batch.Write_loop E C _ _).1; [done|].
  by destruct (Commit_err E _ _).
Qed.

Lemma Write_error_keeps_store_witness :
  (Batch.Write empty_key_engine framed sorted_range
     empty_key_only damaged_db).1.1 = Some ErrEmptyKey
  ∧ (Batch.Write empty_key_engine framed sorted_range
       empty_key_only damaged_db).2 = damaged_db.
Proof.
  split; [by vm_compute|].
  apply (Write_error_keeps_store empty_key_engine framed sorted_range
           empty_key_only damaged_db).
  by vm_compute.
Defined.

Section BatchPutFacts.
Context (E : Engine) (C : Codec) (range : MapRange).

Local Abbreviation puts := (put_all (BatchI0 := badgerBatch_BatchI E C range)).

Lemma put_all_notin entries (bt : badgerBatch) k :
  k ∉ entries.*1 → b (puts entries bt) !! k = b bt !! k.
Proof.
  rewrite put_all_badgerBatch.
  apply (fold_updates_notin (λ _ value, Some value)).
Qed.

Lemma put_all_app entries1 entries2 (bt : badgerBatch) :
  puts (entries1 ++ entries2) bt = puts entries2 (puts entries1 bt).
Proof. unfold put_all. by rewrite foldl_app. Qed.

Lemma put_all_size entries (bt : badgerBatch) :
  0 ≤ size bt → size bt + value_bytes entries < 2 ^ 63 →
  size (puts entries bt) = size bt + value_bytes entries.
Proof.
  revert bt. induction entries as [|[k v] l IH]; intros bt H0 Hb; simpl in *.
  - lia.
  - assert (Hl : 0 ≤ value_bytes l).
    { clear. induction l as [|[? ?] l IH]; simpl; lia. }
    rewrite IH; simpl; rewrite int_wrap_small; lia.
Qed.
End BatchPutFacts.

(** X10.  In a run of [Put] calls on a batch the last value put under a key
    is the one pending, and a key the run does not name keeps what was
    pending for it. *)
Theorem Batch_Put_last_wins (E : Engine) (C : Codec) (range : MapRange)
    (before after : list (bytes * bytes)) (key value : bytes)
    (bt : badgerBatch) :
  key ∉ after.*1 →
  b (put_all (BatchI0 := badgerBatch_BatchI E C range)
       (before ++ (key, value) :: after) bt) !! key = Some value
  ∧ (∀ k, k ∉ (before ++ (key, value) :: after).*1 →
       b (put_all (BatchI0 := badgerBatch_BatchI E C range)
            (before ++ (key, value) :: after) bt) !! k = b bt !! k).
Proof.
  intros Hk. split.
  - rewrite put_all_app. simpl. rewrite put_all_notin by done.
    rewrite put_all_badgerBatch. apply lookup_insert_eq.
  - intros k Hn. by apply put_all_notin.
Qed.

Lemma Batch_Put_last_wins_witness :
  b (put_all
       (BatchI0 := badgerBatch_BatchI empty_key_engine framed sorted_range)
       ([(k1, k1)] ++ (k1, v1) :: [(key_a, k1)]) Batch.NewBatch) !! k1
  = Some v1.
Proof.
  apply (Batch_Put_last_wins empty_key_engine framed sorted_range
           [(k1, k1)] [(key_a, k1)] k1 v1 Batch.NewBatch).
  apply (bool_decide_unpack _). by vm_compute.
Defined.

(** X11.  [ValueSize] after a run of [Put] calls is the size before plus the
    bytes of every value put, repeated keys included and key bytes not
    counted, as long as the sum fits an [int]; a table batch reports the
    same number, the prefix not counted either. *)
Theorem ValueSize_sums_values (E : Engine) (C : Codec) (range : MapRange)
    (entries : list (bytes * bytes)) (bt : badgerBatch) (p : string) :
  0 ≤ size bt → size bt + value_bytes entries < 2 ^ 63 →
  Batch.ValueSize
    (put_all (BatchI0 := badgerBatch_BatchI E C range) entries bt)
  = size bt + value_bytes entries
  ∧ TableBatch.ValueSize (BatchI0 := badgerBatch_BatchI E C range)
      (put_all (BatchI0 := tableBatch_BatchI
                  (BatchI0 := badgerBatch_BatchI E C range))
         entries (mkTableBatch bt p))
    = size bt + value_bytes entries.
Proof.
  intros H0 Hb. split; [by apply put_all_size|].
  rewrite put_all_tableBatch. unfold TableBatch.ValueSize. simpl.
  unfold Batch.ValueSize. rewrite put_all_size; [|done|].
  - f_equal. clear. induction entries as [|[k v] l IH]; simpl; [done|].
    by rewrite IH.
  - replace (value_bytes (prefix_all p entries)) with (value_bytes entries);
      [done|].
    clear. induction entries as [|[k v] l IH]; simpl; [done|]. by rewrite IH.
Qed.

Lemma ValueSize_sums_values_witness :
  Batch.ValueSize
    (put_all
       (BatchI0 := badgerBatch_BatchI empty_key_engine framed sorted_range)
       [(k1, v1); (k1, k1); (key_a, [])] Batch.NewBatch) = 4.
Proof.
  apply (ValueSize_sums_values empty_key_engine framed sorted_range
           [(k1, v1); (k1, k1); (key_a, [])] Batch.NewBatch "");
    by vm_compute.
Defined.

Section BatchReadFacts.
Context (E : Engine) (C : Codec) (range : MapRange).

Lemma Write_loop_all_accepted entries txn :
  (∀ k v, (k, v) ∈ entries → Set_err E k (snappy_Encode C v) = None) →
  (Batch.Write_loop E C entries txn).1 = None.
Proof.
  destruct entries as [|x l] using rev_ind; [done|].
  destruct x as [k v]. intros H. rewrite Write_loop_last.
  apply H. apply elem_of_app. right. apply elem_of_cons. by left.
Qed.

Lemma range_empty : range_ok range → range ∅ = [].
Proof.
  intros H. apply Permutation_nil_r. rewrite (H ∅). by rewrite map_to_list_empty.
Qed.
End BatchReadFacts.

(** X12.  When the engine accepts every entry of the batch and the commit,
    [Write] returns nil, and every entry is then read back by [Get] with
    the value that was pending for it, provided the engine reads it without
    fault and snappy decodes what it encoded. *)
Theorem Write_makes_entries_readable (E : Engine) (C : Codec)
    (range : MapRange) (bt : badgerBatch) (d : BadgerDatabase) :
  range_ok range →
  (∀ k v, b bt !! k = Some v → Set_err E k (snappy_Encode C v) = None) →
  (∀ s, Commit_err E (db d) s = None) →
  (Batch.Write E C range bt d).1.1 = None
  ∧ (∀ k v, b bt !! k = Some v →
       Get_err E k = None → Value_err E k = None →
       snappy_Decode C (snappy_Encode C v) = (v, None) →
       DB.Get E C k (Batch.Write E C range bt d).2 = (Some v, None)).
Proof.
  intros Hr Hacc Hcommit.
  assert (Hnil : (Batch.Write E C range bt d).1.1 = None).
  { rewrite Write_spec. simpl. rewrite Write_loop_all_accepted.
    - by rewrite Hcommit.
    - intros k v Hel. apply Hacc. by apply (range_lookup range bt k v). }
  split; [done|]. intros k v Hk Hg Hv Hrt.
  pose proof (Write_loop_lookup E C range bt d k Hr) as Hl.
  rewrite Hk, (Hacc k v Hk) in Hl.
  rewrite (Get_present E C k _ (snappy_Encode C v)); try done.
  - by rewrite Hrt.
  - rewrite Write_spec in Hnil |- *. simpl in *.
    destruct (Batch.Write_loop E C _ _).1; [done|].
    by destruct (Commit_err E _ _).
  - by rewrite Hrt.
Qed.

Lemma Write_makes_entries_readable_witness :
  DB.Get quiet_engine framed k1
    (Batch.Write quiet_engine framed sorted_range
       (Batch.Put k1 v1 Batch.NewBatch).2 empty_db).2 = (Some v1, None).
Proof.
  apply (Write_makes_entries_readable quiet_engine framed sorted_range
           (Batch.Put k1 v1 Batch.NewBatch).2 empty_db sorted_range_ok);
    by vm_compute.
Defined.

Section BatchComposeFacts.
Context (E : Engine) (C : Codec) (range : MapRange).

(** Setting the encoded entries one by one keeps step with collecting the
    plain entries and overlaying their encodings. *)
Lemma fold_sets_overlay (entries : list (bytes * bytes))
    (pending s s0 : gmap bytes bytes) :
  (∀ k, s !! k = match pending !! k with
                 | Some v => Some (snappy_Encode C v)
                 | None => s0 !! k
                 end) →
  ∀ k, foldl (λ s '(key, value), <[key := snappy_Encode C value]> s)
             s entries !! k
       = match foldl (λ m '(key, value), <[key := value]> m)
                     pending entries !! k with
         | Some v => Some (snappy_Encode C v)
         | None => s0 !! k
         end.
Proof.
  revert pending s. induction entries as [|[k0 v0] l IH];
    intros pending s H k; [apply H|].
  simpl. apply IH. intros k'.
  destruct (decide (k0 = k')) as [->|Hne].
  - by rewrite !lookup_insert_eq.
  - rewrite !lookup_insert_ne by done. apply H.
Qed.

Lemma Put_each_spec entries (d : BadgerDatabase) :
  (∀ k v, Set_err E k v = None) →
  (∀ s s', Commit_err E s s' = None) →
  Put_each E C entries d
  = mkDB (fn d)
      (foldl (λ s '(key, value), <[key := snappy_Encode C value]> s)
             (db d) entries).
Proof.
  intros Hs Hc. revert d.
  induction entries as [|[k v] l IH]; intros d; [by destruct d|].
  simpl. rewrite IH. unfold DB.Put, Txn.Update, Txn.Set_. simpl.
  by rewrite Hs, Hc.
Qed.
End BatchComposeFacts.

(** X13.  On an engine that accepts every write and every commit, writing
    a batch filled by a run of [Put] calls leaves the store exactly as the
    same run of [Put] calls on the store itself leaves it, whatever the
    order in which [Write] visits the batch. *)
Theorem Write_equals_Put_each (E : Engine) (C : Codec) (range : MapRange)
    (entries : list (bytes * bytes)) (d : BadgerDatabase) :
  range_ok range →
  (∀ k v, Set_err E k v = None) →
  (∀ s s', Commit_err E s s' = None) →
  (Batch.Write E C range
     (put_all (BatchI0 := badgerBatch_BatchI E C range)
        entries Batch.NewBatch) d).2
  = Put_each E C entries d.
Proof.
  intros Hr Hs Hc. rewrite Put_each_spec by done.
  set (bt := put_all entries Batch.NewBatch).
  rewrite Write_spec. simpl.
  rewrite Write_loop_all_accepted by (intros; apply Hs).
  rewrite Hc. simpl. f_equal. apply map_eq. intros k.
  rewrite (Write_loop_lookup E C range bt d k Hr).
  rewrite (fold_sets_overlay C entries ∅ (db d) (db d)) by done.
  unfold bt. rewrite put_all_badgerBatch. simpl.
  destruct (foldl _ ∅ entries !! k) as [v|]; [by rewrite Hs | done].
Qed.

Lemma Write_equals_Put_each_witness :
  (Batch.Write quiet_engine framed sorted_range
     (put_all (BatchI0 := badgerBatch_BatchI quiet_engine framed sorted_range)
        [(k1, v1); (key_a, k1); (k1, [])] Batch.NewBatch) damaged_db).2
  = Put_each quiet_engine framed [(k1, v1); (key_a, k1); (k1, [])]
      damaged_db.
Proof.
  apply (Write_equals_Put_each quiet_engine framed sorted_range
           [(k1, v1); (key_a, k1); (k1, [])] damaged_db sorted_range_ok);
    by vm_compute.
Defined.

Lemma Write_clears_batch_empty (E : Engine) (C : Codec) (range : MapRange)
    (bt : badgerBatch) (d : BadgerDatabase) :
  b (Batch.Write E C range bt d).1.2 = ∅.
Proof. unfold Batch.Write. by destruct (Txn.Update _ _ _). Qed.

(** X14.  Writing a batch that holds nothing leaves the store as it was:
    so does a [Write] after [Reset] or [Discard], and a second [Write] of a
    batch that was written, whether the first one failed or not. *)
Theorem Write_of_nothing (E : Engine) (C : Codec) (range : MapRange)
    (bt : badgerBatch) (d0 d : BadgerDatabase) :
  range_ok range →
  (Batch.Write E C range (Batch.Reset bt) d).2 = d
  ∧ (Batch.Write E C range (Batch.Discard bt) d).2 = d
  ∧ (Batch.Write E C range Batch.NewBatch d).2 = d
  ∧ (Batch.Write E C range (Batch.Write E C range bt d0).1.2 d).2 = d.
Proof.
  intros Hr.
  assert (H : ∀ bt', b bt' = ∅ → (Batch.Write E C range bt' d).2 = d).
  { intros bt' Hb. rewrite Write_spec, Hb, (range_empty range Hr). simpl.
    destruct (Commit_err E _ _); [done | by destruct d]. }
  split_and!; try by apply H.
  apply H. apply (Write_clears_batch_empty E C range bt d0).
Qed.

Lemma Write_of_nothing_witness :
  (Batch.Write empty_key_engine framed sorted_range
     (Batch.Write empty_key_engine framed sorted_range
        empty_key_only damaged_db).1.2 damaged_db).2 = damaged_db.
Proof.
  apply (Write_of_nothing empty_key_engine framed sorted_range
           empty_key_only damaged_db damaged_db sorted_range_ok).
Defined.

(** ** The cursor *)

(** Seeking in a sorted list cuts it in two: the entries below the key, and
    from the first entry at or above the key on. *)
Lemma seek_from_split key (l : list (bytes * bytes)) :
  StronglySorted entry_le l →
  ∃ below,
    l = below ++ EngineIter.seek_from key l
    ∧ Forall (λ x, ¬ bytes_leb key x.1) below
    ∧ Forall (λ x, bytes_leb key x.1) (EngineIter.seek_from key l).
Proof.
  induction l as [|[k r] l IH]; intros Hs.
  - exists []. by repeat constructor.
  - apply StronglySorted_inv in Hs as [Hs Hall]. simpl.
    destruct (bytes_leb key k) eqn:Hle.
    + exists []. split_and!; [done | constructor |].
      constructor; [simpl; by rewrite Hle|].
      eapply Forall_impl; [apply Hall|]. intros [k' r'] Hk'.
      unfold entry_le in Hk'. simpl in *.
      apply (bytes_leb_trans key k k'); [by rewrite Hle | done].
    + destruct (IH Hs) as (below & Heq & Hb & Ha).
      exists ((k, r) :: below). split_and!; [simpl; by f_equal | | done].
      constructor; [simpl; by apply Is_true_false_2 | done].
Qed.

Lemma StronglySorted_lookup_le (l : list (bytes * bytes)) i j x y :
  StronglySorted entry_le l → (i < j)%nat →
  l !! i = Some x → l !! j = Some y → entry_le x y.
Proof.
  intros Hs Hij Hi Hj.
  rewrite <-(take_drop j l) in Hs.
  apply (StronglySorted_app_1_elem_of _ _ _ x y Hs).
  - apply list_elem_of_lookup. exists i.
    rewrite lookup_take_lt by done. done.
  - apply list_elem_of_lookup. exists 0%nat.
    by rewrite lookup_drop, Nat.add_0_r.
Qed.

Lemma Item_moved_to_drop (it : badgerIterator) (l : list (bytes * bytes)) n :
  EngineIter.Item (internIterator (Iter.moved_to it (drop n l)))
  = (λ '(k, raw), Txn.mkItem k raw) <$> l !! n.
Proof.
  unfold EngineIter.Item. simpl.
  replace (l !! n) with (drop n l !! 0%nat)
    by by rewrite lookup_drop, Nat.add_0_r.
  by destruct (drop n l) as [|[k r] rest].
Qed.

(** A run of calls on a fresh cursor that returns has not gone past the
    call that exhausts the snapshot. *)
Lemma Nexts_fresh_inv n (it answers_it : badgerIterator) answers :
  initialised it = false →
  Iter.Nexts (S n) it = Some (answers, answers_it) →
  (n ≤ length (EngineIter.entries (internIterator it)))%nat
  ∧ answers_it
    = Iter.moved_to it (drop n (EngineIter.entries (internIterator it))).
Proof.
  intros Hi Hn.
  destruct (decide (n ≤ length (EngineIter.entries (internIterator it)))%nat)
    as [Hle|Hgt].
  - rewrite Nexts_fresh in Hn by done. by injection Hn as _ <-.
  - rewrite Nexts_fresh_panics in Hn; [done | done | lia].
Qed.

(** X15.  [Seek(key)] on a fresh cursor puts it on the smallest key of the
    store, the keys under the engine's own prefix aside, that is not below
    [key]; the cursor is left without an item exactly when every such key
    of the store is below [key].  [Seek] does not touch the two flags of a
    cursor. *)
Theorem Seek_lands_on_least (key : bytes) (d : BadgerDatabase) :
  let it := Iter.Seek key (Iter.NewIterator d) in
  (∀ k0, Iter.Key it = Some k0 →
     is_Some (db d !! k0) ∧ ¬ badgerPrefix `prefix_of` k0
     ∧ bytes_leb key k0
     ∧ (∀ k, is_Some (db d !! k) → ¬ badgerPrefix `prefix_of` k →
          bytes_leb key k → bytes_leb k0 k))
  ∧ (Iter.Key it = None
     ↔ ∀ k, is_Some (db d !! k) → ¬ badgerPrefix `prefix_of` k →
         ¬ bytes_leb key k)
  ∧ (∀ it', initialised (Iter.Seek key it') = initialised it'
            ∧ released (Iter.Seek key it') = released it').
Proof.
  intros it.
  destruct (snapshot_sorted d) as [_ Hsorted]. cbv zeta in Hsorted.
  destruct (seek_from_split key _ Hsorted) as (below & Heq & Hb & Ha).
  assert (Hin : ∀ k raw,
            db d !! k = Some raw ∧ ¬ badgerPrefix `prefix_of` k ↔
            (k, raw) ∈ below
            ∨ (k, raw) ∈ EngineIter.cur (internIterator it)).
  { intros k raw. rewrite <-snapshot_lookup. rewrite Heq at 1.
    apply elem_of_app. }
  rewrite Heq in Hsorted.
  unfold Iter.Key, EngineIter.Item.
  change (EngineIter.seek_from key _)
    with (EngineIter.cur (internIterator it)) in Ha, Hsorted.
  rewrite Forall_forall in Ha, Hb.
  split_and!; [| |done].
  - intros k0 Hk.
    destruct (EngineIter.cur (internIterator it)) as [|[k r] rest] eqn:Hc;
      [done|]. injection Hk as ->.
    assert (Hk0 : db d !! k0 = Some r ∧ ¬ badgerPrefix `prefix_of` k0).
    { apply Hin. right. by left. }
    split_and!.
    + exists r. apply Hk0.
    + apply Hk0.
    + apply (Ha (k0, r)). by left.
    + intros k [raw Hraw] Hshown Hle.
      destruct (proj1 (Hin k raw) (conj Hraw Hshown)) as [Hbel|Hcur].
      * by destruct (Hb _ Hbel).
      * apply elem_of_cons in Hcur as [[= -> ->]|Hrest];
          [apply bytes_leb_refl|].
        apply StronglySorted_app_1_r, StronglySorted_inv in Hsorted
          as [_ Hall].
        rewrite Forall_forall in Hall. apply (Hall _ Hrest).
  - destruct (EngineIter.cur (internIterator it)) as [|[k r] rest] eqn:Hc.
    + split; [|done]. intros _ k [raw Hraw] Hshown.
      destruct (proj1 (Hin k raw) (conj Hraw Hshown)) as [Hbel|Hcur];
        [apply (Hb _ Hbel)|].
      by apply elem_of_nil in Hcur.
    + split; [done|]. intros Hall. exfalso.
      assert (Hk : db d !! k = Some r ∧ ¬ badgerPrefix `prefix_of` k).
      { apply Hin. right. by left. }
      apply (Hall k); [exists r; apply Hk | apply Hk |].
      apply (Ha (k, r)). by left.
Qed.

Lemma Seek_lands_on_least_witness :
  Iter.Key (Iter.Seek badger_key (Iter.NewIterator half_hidden_db))
  = Some key_a
  ∧ is_Some (db half_hidden_db !! key_a) ∧ bytes_leb badger_key key_a.
Proof.
  assert (H : Iter.Key (Iter.Seek badger_key
                          (Iter.NewIterator half_hidden_db))
              = Some key_a) by by vm_compute.
  destruct (proj1 (Seek_lands_on_least badger_key half_hidden_db) key_a H)
    as (H1 & _ & H2 & _).
  by split_and!.
Defined.

(** X16.  [Seek] does not count as a first [Next].  On a cursor that [Next]
    was never called on, the [Next] after a [Seek] rewinds to the first
    entry of the snapshot and the sought position is lost.  On a started
    cursor it moves to the entry after the sought one when [Seek] found an
    entry, and panics when [Seek] found none. *)
Theorem Next_after_Seek (key : bytes) (it : badgerIterator) :
  let sorted := EngineIter.entries (internIterator it) in
  (initialised it = false →
   Iter.Next (Iter.Seek key it)
   = Some (bool_decide (sorted ≠ []), Iter.moved_to it sorted))
  ∧ (initialised it = true →
     ∀ x rest, EngineIter.seek_from key sorted = x :: rest →
       Iter.Next (Iter.Seek key it)
       = Some (bool_decide (rest ≠ []), Iter.moved_to it rest))
  ∧ (initialised it = true →
     EngineIter.seek_from key sorted = [] →
     Iter.Next (Iter.Seek key it) = None).
Proof.
  intros sorted. split_and!.
  - intros Hi. by rewrite Next_fresh.
  - intros Hi x rest Hs. rewrite Next_started by done. simpl.
    fold sorted. by rewrite Hs.
  - intros Hi Hs. rewrite Next_started by done. simpl.
    fold sorted. by rewrite Hs.
Qed.

Lemma Next_after_Seek_witness :
  (Iter.Key ∘ snd)
    <$> Iter.Next (Iter.Seek k1 (Iter.NewIterator two_key_db))
  = Some (Some key_a)
  ∧ Iter.Next (Iter.Seek k1 (Iter.moved_to (Iter.NewIterator two_key_db) []))
    = Some (false,
            Iter.moved_to (Iter.NewIterator two_key_db) [])
  ∧ Iter.Next
      (Iter.Seek (k1 ++ k1) (Iter.moved_to (Iter.NewIterator two_key_db) []))
    = None.
Proof.
  split_and!.
  - rewrite (proj1 (Next_after_Seek k1 (Iter.NewIterator two_key_db)));
      by vm_compute.
  - apply (proj1 (proj2 (Next_after_Seek k1
              (Iter.moved_to (Iter.NewIterator two_key_db) [])))
              eq_refl (k1, v1) []).
    by vm_compute.
  - apply (proj2 (proj2 (Next_after_Seek (k1 ++ k1)
              (Iter.moved_to (Iter.NewIterator two_key_db) [])))
              eq_refl).
    by vm_compute.
Defined.

(** X17.  A run of [Next] calls on a fresh cursor meets exactly the entries
    the store had when the cursor was made, the keys under the engine's own
    prefix aside, in strictly ascending key order and each key once.  With
    [total] such entries, the first [total] calls answer [true] and leave
    the cursor on an entry, the next call answers [false] and leaves it
    without one, and a run with one call more panics. *)
Theorem Next_enumerates_store (d : BadgerDatabase) :
  let it0 := Iter.NewIterator d in
  let total := length (filter shown (map_to_list (db d))) in
  (∀ k raw,
     db d !! k = Some raw ∧ ¬ badgerPrefix `prefix_of` k ↔
     ∃ n answers it,
       Iter.Nexts (S n) it0 = Some (answers, it)
       ∧ EngineIter.Item (internIterator it) = Some (Txn.mkItem k raw))
  ∧ (∀ n m an am itn itm k k', (n < m)%nat →
       Iter.Nexts (S n) it0 = Some (an, itn) →
       Iter.Nexts (S m) it0 = Some (am, itm) →
       Iter.Key itn = Some k → Iter.Key itm = Some k' →
       bytes_leb k k' ∧ k ≠ k')
  ∧ (∀ n, (n ≤ total)%nat →
       fst <$> Iter.Nexts (S n) it0
       = Some ((λ i, bool_decide (i < total)%nat) <$> seq 0 (S n)))
  ∧ (∀ n answers it, Iter.Nexts (S n) it0 = Some (answers, it) →
       (is_Some (Iter.Key it) ↔ (n < total)%nat))
  ∧ (∀ n, (total < n)%nat → Iter.Nexts (S n) it0 = None).
Proof.
  intros it0 total. subst it0.
  destruct (snapshot_sorted d) as [_ Hsorted]. cbv zeta in Hsorted.
  pose proof (snapshot_NoDup d) as Hnd.
  pose proof (snapshot_length d) as Hlen. fold total in Hlen.
  set (sorted := EngineIter.entries (internIterator (Iter.NewIterator d)))
    in *.
  assert (Hinv : ∀ n answers it,
            Iter.Nexts (S n) (Iter.NewIterator d) = Some (answers, it) →
            (n ≤ total)%nat
            ∧ it = Iter.moved_to (Iter.NewIterator d) (drop n sorted)).
  { intros n answers it Hn.
    destruct (Nexts_fresh_inv n (Iter.NewIterator d) it answers eq_refl Hn)
      as [Hle ->].
    fold sorted in Hle. split; [by rewrite <-Hlen | done]. }
  assert (Hrun : ∀ n, (n ≤ total)%nat →
            Iter.Nexts (S n) (Iter.NewIterator d)
            = Some ((λ i, bool_decide (i < total)%nat) <$> seq 0 (S n),
                    Iter.moved_to (Iter.NewIterator d) (drop n sorted))).
  { intros n Hn. rewrite Nexts_fresh; [|done|fold sorted; by rewrite Hlen].
    fold sorted. by rewrite Hlen. }
  split_and!.
  - intros k raw. rewrite <-snapshot_lookup. fold sorted.
    rewrite list_elem_of_lookup. split.
    + intros [n Hn]. pose proof (lookup_lt_Some _ _ _ Hn) as Hlt.
      exists n. eexists _, _. split; [apply Hrun; lia|].
      by rewrite Item_moved_to_drop, Hn.
    + intros (n & answers & it & Hn & Hitem). exists n.
      destruct (Hinv _ _ _ Hn) as [_ ->].
      rewrite Item_moved_to_drop in Hitem.
      destruct (sorted !! n) as [[k' r']|]; simpl in Hitem; [|done].
      by injection Hitem as -> ->.
  - intros n m an am itn itm k k' Hnm Hn Hm Hk Hk'.
    destruct (Hinv _ _ _ Hn) as [_ ->]. destruct (Hinv _ _ _ Hm) as [_ ->].
    rewrite Key_moved_to_drop in Hk, Hk'.
    apply fmap_Some in Hk as ([k0 r] & Hn' & ->).
    apply fmap_Some in Hk' as ([k0' r'] & Hm' & ->).
    split.
    + apply (StronglySorted_lookup_le _ n m _ _ Hsorted Hnm Hn' Hm').
    + simpl. intros <-.
      assert (H1 : sorted.*1 !! n = Some k0)
        by by rewrite list_lookup_fmap, Hn'.
      assert (H2 : sorted.*1 !! m = Some k0)
        by by rewrite list_lookup_fmap, Hm'.
      pose proof (NoDup_lookup _ _ _ _ Hnd H1 H2). lia.
  - intros n Hn. by rewrite Hrun.
  - intros n answers it Hn. destruct (Hinv _ _ _ Hn) as [_ ->].
    rewrite Key_moved_to_drop, fmap_is_Some, lookup_lt_is_Some.
    by rewrite Hlen.
  - intros n Hn. apply Nexts_fresh_panics; [done|].
    fold sorted. by rewrite Hlen.
Qed.

Lemma Next_enumerates_store_witness :
  ∃ n answers it,
    Iter.Nexts (S n) (Iter.NewIterator half_hidden_db) = Some (answers, it)
    ∧ EngineIter.Item (internIterator it) = Some (Txn.mkItem key_a v1).
Proof.
  apply (proj1 (Next_enumerates_store half_hidden_db) key_a v1).
  split; [by vm_compute | apply (bool_decide_unpack _); by vm_compute].
Defined.

(** ** Tables over the Badger store *)

Lemma list_byte_of_string_app (s1 s2 : string) :
  String.list_byte_of_string (s1 +:+ s2)
  = String.list_byte_of_string s1 ++ String.list_byte_of_string s2.
Proof.
  unfold String.list_byte_of_string.
  induction s1 as [|a s1 IH]; simpl; [done|]. by rewrite IH.
Qed.

Lemma prefixed_inj_key (p : string) (k k' : bytes) :
  prefixed p k = prefixed p k' → k = k'.
Proof. unfold prefixed. apply app_inv_head. Qed.

Lemma prefixed_disjoint (p1 p2 : string) (k k' : bytes) :
  ¬ String.list_byte_of_string p1 `prefix_of` String.list_byte_of_string p2 →
  ¬ String.list_byte_of_string p2 `prefix_of` String.list_byte_of_string p1 →
  prefixed p1 k ≠ prefixed p2 k'.
Proof.
  intros H1 H2 Heq. unfold prefixed in Heq.
  destruct (prefix_weak_total (String.list_byte_of_string p1)
              (String.list_byte_of_string p2)
              (String.list_byte_of_string p1 ++ k)); try done.
  - by exists k.
  - exists k'. by rewrite Heq.
Qed.

Section BadgerTableFacts.
Context (E : Engine) (C : Codec).

Local Abbreviation badger := (BadgerDatabase_DatabaseI E C).

(** X18.  Two tables over one Badger store whose prefixes are not a prefix
    of one another never touch each other's keys: a [Put] or [Delete]
    through one table that returns nil leaves what [Get] and [Has] return
    through the other as it was. *)
Theorem tables_do_not_collide (p1 p2 : string) (key1 key2 value : bytes)
    (d d' : BadgerDatabase) :
  ¬ String.list_byte_of_string p1 `prefix_of` String.list_byte_of_string p2 →
  ¬ String.list_byte_of_string p2 `prefix_of` String.list_byte_of_string p1 →
  Table.Put (DatabaseI0 := badger) (mkTable badgerRef p1) key1 value d
    = (None, d')
  ∨ (Table.Delete (DatabaseI0 := badger) (mkTable badgerRef p1) key1 d
       = (None, d')
     ∧ Delete_err E (prefixed p1 key1) = None) →
  Table.Get (DatabaseI0 := badger) (mkTable badgerRef p2) key2 d'
    = Table.Get (DatabaseI0 := badger) (mkTable badgerRef p2) key2 d
  ∧ Table.Has (DatabaseI0 := badger) (mkTable badgerRef p2) key2 d'
    = Table.Has (DatabaseI0 := badger) (mkTable badgerRef p2) key2 d.
Proof.
  intros H1 H2 Hop.
  assert (Hne : prefixed p1 key1 ≠ prefixed p2 key2)
    by by apply prefixed_disjoint.
  assert (Hsame : db d' !! prefixed p2 key2 = db d !! prefixed p2 key2).
  { destruct Hop as [Hput | [Hdel Hq]].
    - apply Put_success in Hput as [_ ->]. by apply lookup_insert_ne.
    - unfold Table.Delete in Hdel. simpl in Hdel.
      rewrite Delete_spec, Hq in Hdel.
      destruct (Commit_err E _ _); [done|]. injection Hdel as <-.
      by apply lookup_delete_ne. }
  unfold Table.Get, Table.Has. simpl.
  split; [by apply Get_local | by apply Has_local].
Qed.

(** X19.  A [Put(k, v)] through a table that returns nil is read back as
    [v] by [Get(k)] through the table and by [Get(prefix ++ k)] on the
    store itself, and by no other key of the table, provided the engine
    reads without fault and snappy decodes what it encoded. *)
Theorem table_Put_Get (p : string) (key value : bytes)
    (d d' : BadgerDatabase) :
  Table.Put (DatabaseI0 := badger) (mkTable badgerRef p) key value d
    = (None, d') →
  Get_err E (prefixed p key) = None →
  Value_err E (prefixed p key) = None →
  snappy_Decode C (snappy_Encode C value) = (value, None) →
  Table.Get (DatabaseI0 := badger) (mkTable badgerRef p) key d'
    = (Some value, None)
  ∧ DB.Get E C (String.list_byte_of_string p ++ key) d' = (Some value, None)
  ∧ (∀ k, k ≠ key →
       Table.Get (DatabaseI0 := badger) (mkTable badgerRef p) k d'
       = Table.Get (DatabaseI0 := badger) (mkTable badgerRef p) k d).
Proof.
  intros Hput Hg Hv Hrt.
  apply Put_success in Hput as [_ ->].
  assert (Hread : DB.Get E C (prefixed p key)
            (mkDB (fn d) (<[prefixed p key := snappy_Encode C value]> (db d)))
            = (Some value, None)).
  { rewrite (Get_present E C _ _ (snappy_Encode C value)); try done.
    - by rewrite Hrt.
    - apply lookup_insert_eq.
    - by rewrite Hrt. }
  split_and!; [done | done |].
  intros k Hne. unfold Table.Get. simpl. apply Get_local. simpl.
  apply lookup_insert_ne. intros Heq. by apply prefixed_inj_key in Heq.
Qed.
End BadgerTableFacts.

Lemma tables_do_not_collide_witness :
  Table.Get
    (DatabaseI0 := BadgerDatabase_DatabaseI quiet_engine framed)
    (mkTable badgerRef "B/") k1
    (Table.Put
       (DatabaseI0 := BadgerDatabase_DatabaseI quiet_engine framed)
       (mkTable badgerRef "A/") k1 v1 empty_db).2
  = Table.Get
      (DatabaseI0 := BadgerDatabase_DatabaseI quiet_engine framed)
      (mkTable badgerRef "B/") k1 empty_db.
Proof.
  apply (tables_do_not_collide quiet_engine framed "A/" "B/" k1 k1 v1
           empty_db).
  - apply (bool_decide_unpack _). by vm_compute.
  - apply (bool_decide_unpack _). by vm_compute.
  - left. by vm_compute.
Defined.

Lemma table_Put_Get_witness :
  DB.Get quiet_engine framed (String.list_byte_of_string "tbl-" ++ key_a)
    (Table.Put
       (DatabaseI0 := BadgerDatabase_DatabaseI quiet_engine framed)
       (mkTable badgerRef "tbl-") key_a v1 empty_db).2
  = (Some v1, None).
Proof.
  apply (table_Put_Get quiet_engine framed "tbl-" key_a v1
           empty_db); by vm_compute.
Defined.

(** X20.  Over any store, a table whose prefix is [p1] followed by [p2] and
    a table with prefix [p2] over a table with prefix [p1] act on the same
    keys: the four operations agree, and so do the batches made from the
    two. *)
Theorem table_prefix_concat {W D B : Type} `{!DatabaseI W D B}
    `{!BatchI W B} (d : D) (p1 p2 : string) (key value : bytes) (w : W) :
  let flat := mkTable d (p1 +:+ p2) in
  let nested := mkTable (mkTable d p1) p2 in
  Table.Put flat key value w = Table.Put nested key value w
  ∧ Table.Get flat key w = Table.Get nested key w
  ∧ Table.Has flat key w = Table.Has nested key w
  ∧ Table.Delete flat key w = Table.Delete nested key w
  ∧ (∀ bt : B,
       (TableBatch.Put key value (mkTableBatch bt (p1 +:+ p2))).1
       = (TableBatch.Put key value
            (mkTableBatch (mkTableBatch bt p1) p2)).1
       ∧ batch (TableBatch.Put key value (mkTableBatch bt (p1 +:+ p2))).2
         = batch (batch (TableBatch.Put key value
                           (mkTableBatch (mkTableBatch bt p1) p2)).2)).
Proof.
  assert (Hk : prefixed (p1 +:+ p2) key = prefixed p1 (prefixed p2 key)).
  { unfold prefixed. by rewrite list_byte_of_string_app, <-app_assoc. }
  intros flat nested.
  unfold Table.Put, Table.Get, Table.Has, Table.Delete. simpl.
  unfold Table.Put, Table.Get, Table.Has, Table.Delete. simpl.
  rewrite Hk. split_and!; try done.
  intros bt. unfold TableBatch.Put. simpl. unfold TableBatch.Put. simpl.
  rewrite Hk. by destruct (i_BatchPut _ value bt).
Qed.

(** ** The whole run of the garbage-collection loop *)

Section GCRunFacts.
Context (E : Engine).

Lemma runGC_step n :
  calls (GC.runGC E (S n))
    = calls (GC.runGC E n) ++ (GC.collectGarbage E n).2
  ∧ length (logged (GC.runGC E (S n))) = S (S (length (logged (GC.runGC E n)))).
Proof.
  simpl GC.runGC. unfold GC.cycle. rewrite runGC_ticks.
  destruct (GC.collectGarbage E n) as [[e|] made]; simpl;
    (split; [done|]); rewrite !length_app; simpl; lia.
Qed.

Lemma collectGarbage_calls n :
  (GC.collectGarbage E n).2
  = PurgeOlderVersions
    :: (if Purge_err E n is Some _ then [] else [RunValueLogGC (1 # 2)]).
Proof. unfold GC.collectGarbage. by destruct (Purge_err E n). Qed.
End GCRunFacts.

(** X21.  The loop goes on whatever its cycles return.  After [n] ticks it
    has made the calls of the cycles 0 to [n - 1] in that order: one purge
    per tick, one value-log collection per cycle whose purge succeeded and
    none for the others, every one with ratio 1/2; and it has logged two
    lines per cycle. *)
Theorem runGC_never_stops (E : Engine) (n : nat) :
  calls (GC.runGC E n)
    = concat ((λ i, (GC.collectGarbage E i).2) <$> seq 0 n)
  ∧ length (filter (λ c, is_purge c = true) (calls (GC.runGC E n))) = n
  ∧ length (filter (λ c, is_purge c = false) (calls (GC.runGC E n)))
    = length (filter (λ i, Purge_err E i = None) (seq 0 n))
  ∧ Forall (λ c, c = PurgeOlderVersions ∨ c = RunValueLogGC (1 # 2))
      (calls (GC.runGC E n))
  ∧ length (logged (GC.runGC E n)) = (2 * n)%nat.
Proof.
  induction n as [|n (IH1 & IH2 & IH3 & IH4 & IH5)]; [by repeat constructor|].
  destruct (runGC_step E n) as [Hc Hl].
  rewrite Hc, Hl. clear Hc Hl.
  split_and!.
  - rewrite seq_S, fmap_app, concat_app, <-IH1. simpl. by rewrite app_nil_r.
  - rewrite filter_app, length_app, IH2, collectGarbage_calls.
    destruct (Purge_err E n); simpl; lia.
  - rewrite filter_app, length_app, IH3, collectGarbage_calls.
    rewrite seq_S, filter_app, length_app. f_equal. simpl.
    destruct (Purge_err E n) eqn:Hp.
    + rewrite (filter_cons_False _ n) by (by rewrite Hp). done.
    + rewrite (filter_cons_True _ n) by done. done.
  - apply Forall_app. split; [done|]. rewrite collectGarbage_calls.
    constructor; [by left|].
    destruct (Purge_err E n); [constructor|].
    constructor; [by right | constructor].
  - rewrite IH5. lia.
Qed.

Lemma runGC_never_stops_witness :
  length (filter (λ c, is_purge c = false)
            (calls (GC.runGC odd_purge_engine 5))) = 3%nat.
Proof.
  rewrite (proj1 (proj2 (proj2 (runGC_never_stops odd_purge_engine 5)))).
  by vm_compute.
Defined.

(** ** Metering *)

Section MeterFacts.
Context (E : Engine) (C : Codec) (range : MapRange).

Lemma Get_view_Get key (d : BadgerDatabase) :
  DB.Get E C key d
  = match (Get_view E C key d).2 with
    | Some e => (None, Some e)
    | None => (Some (Get_view E C key d).1, None)
    end.
Proof.
  unfold DB.Get, Get_view. by destruct (Txn.View _ _) as [dat [e|]].
Qed.

(** What the closure of [Get] leaves in [dat] where it does not get as far
    as decoding. *)
Lemma Get_view_undecoded key (d : BadgerDatabase) :
  db d !! key = None ∨ Get_err E key ≠ None ∨ Value_err E key ≠ None →
  (Get_view E C key d).1 = [].
Proof.
  unfold Get_view, Txn.View, Txn.Get, Txn.Value. simpl.
  destruct (Get_err E key); simpl; [done|].
  destruct (db d !! key); simpl; [|done].
  destruct (Value_err E key); simpl; [done|].
  intros [?|[?|?]]; done.
Qed.
End MeterFacts.

(** X22.  Metering changes nothing but the handles: each metered method
    returns what the method returns without it and leaves the store and
    the batch as it does; and on a store that [Meter] was never called on,
    or was called on with metrics disabled, the handles stay nil. *)
Theorem metering_only_observes (E : Engine) (C : Codec) (range : MapRange)
    (key value : bytes) (m : Meters) (bt : badgerBatch)
    (d : BadgerDatabase) (p : string) (r : Metrics.Registry) :
  ((Metered.Put E C key value m d).1.1, (Metered.Put E C key value m d).2)
    = DB.Put E C key value d
  ∧ (Metered.Get E C key m d).1 = DB.Get E C key d
  ∧ ((Metered.Delete E key m d).1.1, (Metered.Delete E key m d).2)
    = DB.Delete E key d
  ∧ (Metered.BatchPut key value bt m).1 = Batch.Put key value bt
  ∧ ((Metered.BatchWrite E C range bt m d).1.1,
     (Metered.BatchWrite E C range bt m d).2)
    = Batch.Write E C range bt d
  ∧ (let m0 := (Metered.Meter false p no_meters r).1 in
     m0 = no_meters
     ∧ (Metered.Put E C key value m0 d).1.2 = no_meters
     ∧ (Metered.Get E C key m0 d).2 = no_meters
     ∧ (Metered.Delete E key m0 d).1.2 = no_meters
     ∧ (Metered.BatchPut key value bt m0).2 = no_meters
     ∧ (Metered.BatchWrite E C range bt m0 d).1.2 = no_meters).
Proof.
  unfold Metered.Put, Metered.Get, Metered.Delete, Metered.BatchPut,
    Metered.BatchWrite.
  rewrite Get_view_Get.
  destruct (DB.Put E C key value d) as [e1 d1].
  destruct (Get_view E C key d) as [dat [e2|]];
  destruct (DB.Delete E key d) as [e3 d3];
  destruct (Batch.Write E C range bt d) as [[e4 bt4] d4];
  simpl; split_and!; done.
Qed.

(** X23.  What a [Get] leaves on the handles.  The get timer takes one
    sample.  A [Get] that succeeds marks the read meter with the length of
    the value it returns and leaves the miss meter alone.  A [Get] that
    fails marks the miss meter with 1, and still marks the read meter: with
    0 when the key is absent or the engine faults, and otherwise with the
    length of whatever the decoder handed out next to its error.  No other
    handle changes. *)
Theorem Get_metering (E : Engine) (C : Codec) (key : bytes) (m : Meters)
    (d : BadgerDatabase) :
  let r := Metered.Get E C key m d in
  getTimer r.2 = Metrics.UpdateSince <$> getTimer m
  ∧ (∀ v, r.1 = (Some v, None) →
       readMeter r.2 = Metrics.Mark (Z.of_nat (length v)) <$> readMeter m
       ∧ missMeter r.2 = missMeter m)
  ∧ (r.1.2 ≠ None →
     missMeter r.2 = Metrics.Mark 1 <$> missMeter m
     ∧ readMeter r.2
       = Metrics.Mark (Z.of_nat (length (Get_view E C key d).1))
           <$> readMeter m)
  ∧ (db d !! key = None ∨ Get_err E key ≠ None ∨ Value_err E key ≠ None →
     readMeter r.2 = Metrics.Mark 0 <$> readMeter m)
  ∧ (putTimer r.2, delTimer r.2, writeMeter r.2, batchPutTimer r.2,
     batchWriteTimer r.2, batchWriteMeter r.2)
    = (putTimer m, delTimer m, writeMeter m, batchPutTimer m,
       batchWriteTimer m, batchWriteMeter m).
Proof.
  intros r. unfold r, Metered.Get.
  pose proof (Get_view_undecoded E C key d) as Hun.
  destruct (Get_view E C key d) as [dat [e|]]; simpl in *.
  - split_and!; try done. intros H. by rewrite (Hun H).
  - split_and!; try done.
    + by intros v [= ->].
    + intros H. by rewrite (Hun H).
Qed.

Lemma Get_metering_witness :
  readMeter (Metered.Get empty_key_engine leaky k1 used_meters damaged_db).2
  = Some (Metrics.mkMeter "eth/db/user/reads" 42 true)
  ∧ missMeter (Metered.Get empty_key_engine leaky k1 used_meters damaged_db).2
    = Some (Metrics.mkMeter "eth/db/user/misses" 3 true)
  ∧ readMeter (Metered.Get empty_key_engine framed k1 used_meters empty_db).2
    = Some (Metrics.mkMeter "eth/db/user/reads" 40 true).
Proof.
  split_and!.
  - destruct (proj1 (proj2 (proj2 (Get_metering empty_key_engine leaky k1
                 used_meters damaged_db))) ltac:(by vm_compute)) as [_ ->].
    by vm_compute.
  - destruct (proj1 (proj2 (proj2 (Get_metering empty_key_engine leaky k1
                 used_meters damaged_db))) ltac:(by vm_compute)) as [-> _].
    by vm_compute.
  - rewrite (proj1 (proj2 (proj2 (proj2 (Get_metering empty_key_engine
                 framed k1 used_meters empty_db))))
               ltac:(left; by vm_compute)).
    by vm_compute.
Defined.

(** X24.  What writing leaves on the handles.  [Put] marks the write meter
    with the length of the value as the caller gave it, before encoding,
    and does so whether or not the write then succeeds; [Write] marks the
    batch-write meter with the [ValueSize] the batch had, whether or not
    the transaction then succeeds.  Each takes one sample on its timer. *)
Theorem write_metering (E : Engine) (C : Codec) (range : MapRange)
    (key value : bytes) (m : Meters) (bt : badgerBatch)
    (d : BadgerDatabase) :
  writeMeter (Metered.Put E C key value m d).1.2
    = Metrics.Mark (Z.of_nat (length value)) <$> writeMeter m
  ∧ putTimer (Metered.Put E C key value m d).1.2
    = Metrics.UpdateSince <$> putTimer m
  ∧ batchWriteMeter (Metered.BatchWrite E C range bt m d).1.2
    = Metrics.Mark (Batch.ValueSize bt) <$> batchWriteMeter m
  ∧ batchWriteTimer (Metered.BatchWrite E C range bt m d).1.2
    = Metrics.UpdateSince <$> batchWriteTimer m
  ∧ batchPutTimer (Metered.BatchPut key value bt m).2
    = Metrics.UpdateSince <$> batchPutTimer m
  ∧ delTimer (Metered.Delete E key m d).1.2
    = Metrics.UpdateSince <$> delTimer m.
Proof.
  unfold Metered.Put, Metered.BatchWrite, Metered.BatchPut, Metered.Delete.
  destruct (DB.Put E C key value d) as [e1 d1].
  destruct (DB.Delete E key d) as [e3 d3].
  destruct (Batch.Write E C range bt d) as [[e4 bt4] d4].
  simpl. split_and!; done.
Qed.
